(** * app7.py: a hash-linked pension ledger and its payout projection

    A shallow embedding of the core of [src/app7.py]: the two dataclasses
    ([PensionRecord], [Block]), the session-state ledger the script keeps
    between executions, the append handler and the projection arithmetic.

    Python values are modelled as the interpreter has them:
    - [int] is [Z];
    - [float] is IEEE-754 binary64, Rocq's primitive [float];
    - [str] is [string], read as the UTF-8 bytes of the text;
    - a raised exception is an [Error] result. *)

From Stdlib Require Import ZArith Bool List String Ascii Lia.
From Stdlib Require Import Floats DecimalString.
From Stdlib Require DecimalZ DecimalPos.
Import ListNotations.

Set Implicit Arguments.
Set Warnings "-inexact-float".
Local Open Scope string_scope.
Local Open Scope Z_scope.

(** ** Exceptions *)

Inductive exn : Type :=
| IndexError
| OverflowError.

Inductive result (A : Type) : Type :=
| Ok (a : A)
| Error (e : exn).

Arguments Ok {A} a.
Arguments Error {A} e.

Definition bind {A B : Type} (m : result A) (k : A -> result B) : result B :=
  match m with
  | Ok a => k a
  | Error e => Error e
  end.

Notation "x <- m ;; k" := (bind m (fun x => k))
  (at level 61, m at next level, right associativity).

(** ** Text rendering of Python values *)

Module Render.

(** [str(int)] and [repr(int)]: decimal digits, with a leading minus sign. *)
Definition str_int (z : Z) : string :=
  NilZero.string_of_int (Z.to_int z).

Fixpoint zeros (n : nat) : string :=
  match n with
  | O => ""
  | S k => String "0" (zeros k)
  end.

(** *** [repr(float)]

    CPython prints the shortest decimal string that reads back as the same
    double (the nearest such string when several have that length), in
    exponent notation when the decimal point position [decpt] is at most -4
    or above 16, and in positional notation with a [.0] added to integers
    otherwise. *)

(** A positive double is [m * 2^e]; its rounding interval is
    [(4m - below) * 2^(e-2), (4m + 2) * 2^(e-2)], the bounds included when
    [m] is even. *)
Definition below (m : positive) (e : Z) : Z :=
  if (Z.pos m =? 2 ^ 52) && (-1074 <? e) then 1 else 2.

(** [scale E k] is the fraction [2^E / 10^k] as numerator and denominator. *)
Definition scale (E k : Z) : Z * Z :=
  ((if 0 <=? E then 2 ^ E else 1) * (if k <? 0 then 10 ^ (- k) else 1),
   (if 0 <=? E then 1 else 2 ^ (- E)) * (if k <? 0 then 1 else 10 ^ k)).

(** A lower estimate of the decimal point position of [X * 2^E]: its binary
    logarithm times [log10 2], less one. *)
Definition decpt_estimate (X E : Z) : Z :=
  ((Z.log2 X + E) * 30103) / 100000 - 1.

(** The least [p] from [p] upwards with [X * 2^E < 10^p]. *)
Fixpoint find_decpt (fuel : nat) (p X E : Z) : Z :=
  match fuel with
  | O => p
  | S f =>
      let '(a, D) := scale E p in
      if X * a <? D then p else find_decpt f (p + 1) X E
  end.

Definition in_interval (closed : bool) (lo c hi : Z) : bool :=
  if closed then (lo <=? c) && (c <=? hi) else (lo <? c) && (c <? hi).

(** The [n]-digit candidates around [X * 2^E] at scale [10^k]: the one inside
    the rounding interval, the nearer when both are, the even on a tie. *)
Definition pick (closed : bool) (L X H E k : Z) : option Z :=
  let '(a, D) := scale E k in
  let d := (X * a) / D in
  let lo_ok := in_interval closed (L * a) (d * D) (H * a) in
  let hi_ok := in_interval closed (L * a) ((d + 1) * D) (H * a) in
  match lo_ok, hi_ok with
  | true, true =>
      let r := 2 * (X * a - d * D) in
      Some (if r <? D then d
            else if D <? r then d + 1
            else if Z.even d then d else d + 1)
  | true, false => Some d
  | false, true => Some (d + 1)
  | false, false => None
  end.

(** The exact decimal expansion of [X * 2^E], as a coefficient and a power
    of ten: the last resort, should no decimal of up to 17 digits lie in the
    rounding interval (one always does). *)
Definition exact_decimal (X E : Z) : Z * Z :=
  if 0 <=? E then (X * 2 ^ E, 0) else (X * 5 ^ (- E), E).

(** The shortest decimal [c * 10^k] in the rounding interval, tried with
    [n], [n + 1], ... digits. *)
Fixpoint shortest (fuel : nat) (n : Z) (closed : bool) (L X H E p : Z) : Z * Z :=
  match fuel with
  | O => exact_decimal X E
  | S f =>
      match pick closed L X H E (p - n) with
      | Some c => (c, p - n)
      | None => shortest f (n + 1) closed L X H E p
      end
  end.

(** Digits and decimal point position of a positive finite double; a
    candidate rounded up to a power of ten prints as the digit 1. *)
Definition float_digits (m : positive) (e : Z) : string * Z :=
  let X := 4 * Z.pos m in
  let L := X - below m e in
  let H := X + 2 in
  let E := e - 2 in
  let p := find_decpt 8 (decpt_estimate X E) X E in
  let '(c, k) := shortest 17 1 (Z.even (Z.pos m)) L X H E p in
  let digits := str_int c in
  let j := Z.of_nat (String.length digits) - 1 in
  (if c =? 10 ^ j then "1" else digits, k + j + 1).

Definition exponent_text (ex : Z) : string :=
  let a := str_int (Z.abs ex) in
  (if ex <? 0 then "-" else "+") ++ (if Z.abs ex <? 10 then "0" ++ a else a).

Definition format_repr (digits : string) (decpt : Z) : string :=
  let n := Z.of_nat (String.length digits) in
  if (decpt <=? -4) || (16 <? decpt) then
    match digits with
    | "" => ""
    | String c "" => String c "" ++ "e" ++ exponent_text (decpt - 1)
    | String c rest => String c ("." ++ rest) ++ "e" ++ exponent_text (decpt - 1)
    end
  else if decpt <=? 0 then
    "0." ++ zeros (Z.to_nat (- decpt)) ++ digits
  else if n <=? decpt then
    digits ++ zeros (Z.to_nat (decpt - n)) ++ ".0"
  else
    substring 0 (Z.to_nat decpt) digits ++ "." ++
    substring (Z.to_nat decpt) (Z.to_nat (n - decpt)) digits.

Definition repr_float (x : float) : string :=
  match Prim2SF x with
  | S754_nan => "nan"
  | S754_infinity s => if s then "-inf" else "inf"
  | S754_zero s => if s then "-0.0" else "0.0"
  | S754_finite s m e =>
      let '(digits, decpt) := float_digits m e in
      (if s then "-" else "") ++ format_repr digits decpt
  end.

End Render.

(** ** SHA-256 ([hashlib.sha256], FIPS 180-4)

    Words are 32-bit integers kept in [Z], every sum reduced modulo [2^32]. *)

Module Sha256.

Definition w32 (x : Z) : Z := x mod 2 ^ 32.

Definition add32 (x y : Z) : Z := w32 (x + y).

Definition rotr (n x : Z) : Z :=
  Z.lor (Z.shiftr x n) (w32 (Z.shiftl x (32 - n))).

Definition Ch (x y z : Z) : Z :=
  Z.lxor (Z.land x y) (Z.land (w32 (Z.lnot x)) z).

Definition Maj (x y z : Z) : Z :=
  Z.lxor (Z.lxor (Z.land x y) (Z.land x z)) (Z.land y z).

Definition Sigma0 (x : Z) : Z :=
  Z.lxor (Z.lxor (rotr 2 x) (rotr 13 x)) (rotr 22 x).

Definition Sigma1 (x : Z) : Z :=
  Z.lxor (Z.lxor (rotr 6 x) (rotr 11 x)) (rotr 25 x).

Definition sigma0 (x : Z) : Z :=
  Z.lxor (Z.lxor (rotr 7 x) (rotr 18 x)) (Z.shiftr x 3).

Definition sigma1 (x : Z) : Z :=
  Z.lxor (Z.lxor (rotr 17 x) (rotr 19 x)) (Z.shiftr x 10).

(** The constants are fractional parts of roots of the first primes: the
    first 32 bits of the cube roots of the first 64 for [K], of the square
    roots of the first eight for [H0]. *)
Definition is_prime (n : Z) : bool :=
  forallb (fun k => negb (n mod Z.of_nat k =? 0)) (seq 2 (Z.to_nat n - 2)).

Definition primes : list Z :=
  filter is_prime (map Z.of_nat (seq 2 310)).

(** The integer cube root, one bit at a time from bit [n - 1] down. *)
Fixpoint cube_root (n : nat) (x r : Z) : Z :=
  match n with
  | O => r
  | S k =>
      let r' := r + 2 ^ Z.of_nat k in
      cube_root k x (if r' * r' * r' <=? x then r' else r)
  end.

Definition K : list Z :=
  Eval vm_compute in map (fun p => w32 (cube_root 40 (p * 2 ^ 96) 0)) primes.

Definition H0 : list Z :=
  Eval vm_compute in map (fun p => w32 (Z.sqrt (p * 2 ^ 64))) (firstn 8 primes).

(** Padding: a [0x80] byte, zero bytes up to 56 modulo 64, then the bit
    length as eight big-endian bytes. *)
Definition be_bytes (n : nat) (x : Z) : list Z :=
  map (fun i => (Z.shiftr x (8 * Z.of_nat i)) mod 256) (rev (seq 0 n)).

Definition pad (msg : list Z) : list Z :=
  let len := Z.of_nat (List.length msg) in
  let fill := Z.to_nat ((55 - len) mod 64) in
  msg ++ [128] ++ repeat 0 fill ++ be_bytes 8 (8 * len).

Definition be_word (b3 b2 b1 b0 : Z) : Z :=
  Z.lor (Z.lor (Z.shiftl b3 24) (Z.shiftl b2 16)) (Z.lor (Z.shiftl b1 8) b0).

Fixpoint words (fuel : nat) (bytes : list Z) : list Z :=
  match fuel, bytes with
  | S f, b3 :: b2 :: b1 :: b0 :: rest => be_word b3 b2 b1 b0 :: words f rest
  | _, _ => []
  end.

(** The message schedule: sixteen words of the block, extended to 64. *)
Fixpoint schedule (n : nat) (w : list Z) : list Z :=
  match n with
  | O => w
  | S k =>
      let t := List.length w in
      let at_ (i : nat) := nth (t - i) w 0 in
      schedule k
        (w ++ [add32 (add32 (sigma1 (at_ 2%nat)) (at_ 7%nat))
                     (add32 (sigma0 (at_ 15%nat)) (at_ 16%nat))])
  end.

Record state : Type := mkState { a : Z; b : Z; c : Z; d : Z; e : Z; f : Z; g : Z; h : Z }.

Definition round (s : state) (kw : Z * Z) : state :=
  let t1 := add32 (add32 (add32 (h s) (Sigma1 (e s))) (Ch (e s) (f s) (g s)))
                  (add32 (fst kw) (snd kw)) in
  let t2 := add32 (Sigma0 (a s)) (Maj (a s) (b s) (c s)) in
  mkState (add32 t1 t2) (a s) (b s) (c s) (add32 (d s) t1) (e s) (f s) (g s).

Definition compress (hs : state) (block : list Z) : state :=
  let s := fold_left round (combine K (schedule 48 block)) hs in
  mkState (add32 (a hs) (a s)) (add32 (b hs) (b s)) (add32 (c hs) (c s))
          (add32 (d hs) (d s)) (add32 (e hs) (e s)) (add32 (f hs) (f s))
          (add32 (g hs) (g s)) (add32 (h hs) (h s)).

Fixpoint blocks (fuel : nat) (ws : list Z) (hs : state) : state :=
  match fuel, ws with
  | _, [] => hs
  | O, _ => hs
  | S k, _ => blocks k (skipn 16 ws) (compress hs (firstn 16 ws))
  end.

Definition initial : state :=
  mkState (nth 0 H0 0) (nth 1 H0 0) (nth 2 H0 0) (nth 3 H0 0)
          (nth 4 H0 0) (nth 5 H0 0) (nth 6 H0 0) (nth 7 H0 0).

Definition digest_words (msg : list Z) : list Z :=
  let bytes := pad msg in
  let n := List.length bytes in
  let s := blocks n (words n bytes) initial in
  [a s; b s; c s; d s; e s; f s; g s; h s].

Definition hex_digit (x : Z) : ascii :=
  ascii_of_N (Z.to_N (if x <? 10 then 48 + x else 87 + x)).

Definition hex_word (w : Z) : string :=
  string_of_list_ascii
    (map (fun i => hex_digit ((Z.shiftr w (4 * Z.of_nat i)) mod 16)) (rev (seq 0 8))).

(** [str.encode()]: the bytes of the text. *)
Definition encode (s : string) : list Z :=
  map (fun ch => Z.of_N (N_of_ascii ch)) (list_ascii_of_string s).

(** [hashlib.sha256(data).hexdigest()]: 64 lower-case hexadecimal digits. *)
Definition hexdigest (data : list Z) : string :=
  String.concat "" (map hex_word (digest_words data)).

End Sha256.

(** ** Numbers

    The script mixes [int] and [float]: [sum] starts from the integer [0],
    [1 + cpi] and [years_early * reduction_rate] convert their integer operand
    to a double first. *)

Inductive number : Type :=
| Int (z : Z)
| Float (x : float).

(** [float(z)]: the nearest double, ties to even; [OverflowError] when it is
    out of range. *)
Definition float_of_int (z : Z) : result float :=
  let x := SF2Prim (binary_normalize prec emax z 0 false) in
  if is_infinity x then Error OverflowError else Ok x.

Definition to_float (n : number) : result float :=
  match n with
  | Int z => float_of_int z
  | Float x => Ok x
  end.

(** The builtin [sum] over doubles: left to right from the integer [0], so
    the empty sum is the integer itself. (CPython 3.12 and later carry a
    compensation term through the additions and add it at the end; with one
    or two items the total is the same double.) *)
Definition py_sum (items : list float) : number :=
  match items with
  | [] => Int 0
  | x :: rest => Float (fold_left PrimFloat.add rest (0 + x)%float)
  end.

(** ** The dataclasses (lines 8-27) *)

Record PensionRecord : Type := mkPensionRecord {
  year : Z;
  salary : float;
  accrual_rate : float;
  cpi_index : float
}.

Definition calculate_unit (self : PensionRecord) : float :=
  ((salary self * accrual_rate self) * (1 + cpi_index self))%float.

(** The generated [__repr__], which the f-string of [hash_block] falls back
    to for [{self.record}]. *)
Definition repr_record (r : PensionRecord) : string :=
  "PensionRecord(year=" ++ Render.str_int (year r) ++
  ", salary=" ++ Render.repr_float (salary r) ++
  ", accrual_rate=" ++ Render.repr_float (accrual_rate r) ++
  ", cpi_index=" ++ Render.repr_float (cpi_index r) ++ ")".

Record Block : Type := mkBlock {
  index : Z;
  record : PensionRecord;
  prev_hash : string;
  timestamp : string
}.

Definition block_string (self : Block) : string :=
  Render.str_int (index self) ++ repr_record (record self) ++
  prev_hash self ++ timestamp self.

Definition hash_block (self : Block) : string :=
  Sha256.hexdigest (Sha256.encode (block_string self)).

(** The class statement evaluates the default of [timestamp] once, when it
    runs: [now] is what [datetime.now().strftime(...)] returned then. The
    class object keeps it for every construction that passes no timestamp. *)
Record BlockClass : Type := mkBlockClass {
  timestamp_default : string
}.

Definition class_Block (now : string) : BlockClass :=
  mkBlockClass now.

Definition new_Block (cls : BlockClass) (i : Z) (r : PensionRecord)
    (p : string) (ts : option string) : Block :=
  mkBlock i r p (match ts with
                 | Some t => t
                 | None => timestamp_default cls
                 end).

(** ** The script (lines 33-70)

    Streamlit executes the script from its first line on every interaction;
    only [st.session_state] survives from one execution to the next. *)

(** [None]: the key ["chain"] is not in the session state yet. *)
Definition session_state : Type := option (list Block).

Inductive denominator : Type := D49 | D57 | D60.

Definition denominator_value (d : denominator) : float :=
  match d with
  | D49 => 49
  | D57 => 57
  | D60 => 60
  end%float.

(** What the sidebar widgets return in one execution. *)
Record widgets : Type := mkWidgets {
  w_year : Z;
  w_salary : float;
  w_accrual_denom : denominator;
  w_cpi : float;
  w_button : bool;
  w_npa : Z;
  w_retire_age : Z;
  w_reduction : float
}.

Definition genesis_record : PensionRecord :=
  mkPensionRecord 2023 0 0 0.

(** Lines 33-35. *)
Definition initialise (cls : BlockClass) (st : session_state) : list Block :=
  match st with
  | None => [new_Block cls 0 genesis_record "0" None]
  | Some chain => chain
  end.

(** [chain[-1]]. *)
Definition last_block (chain : list Block) : result Block :=
  match rev chain with
  | [] => Error IndexError
  | b :: _ => Ok b
  end.

(** Lines 48-50: link a record to the tail of the chain. *)
Definition append (cls : BlockClass) (new_record : PensionRecord)
    (chain : list Block) : result (list Block) :=
  tail <- last_block chain ;;
  let prev_hash := hash_block tail in
  let new_block :=
    new_Block cls (Z.of_nat (List.length chain)) new_record prev_hash None in
  Ok (chain ++ [new_block])%list.

(** Lines 45-50. *)
Definition button_handler (cls : BlockClass) (w : widgets)
    (chain : list Block) : result (list Block) :=
  if w_button w then
    let accrual_rate := (1 / denominator_value (w_accrual_denom w))%float in
    let new_record :=
      mkPensionRecord (w_year w) (w_salary w) accrual_rate (w_cpi w / 100)%float in
    append cls new_record chain
  else Ok chain.

(** Line 61: the generator runs over [chain[1:]]. *)
Definition total_pension_raw (chain : list Block) : number :=
  py_sum (map (fun b => calculate_unit (record b)) (skipn 1 chain)).

(** What the status message reports: the early branch prints the reduction
    and the years, the other branch binds neither. *)
Inductive status : Type :=
| EarlyRetirement (total_reduction : float) (years_early : Z)
| FullEntitlement.

Record projection : Type := mkProjection {
  raw_total : number;
  final_pension : number;
  status_msg : status
}.

(** Lines 61-70. *)
Definition project (chain : list Block) (npa retire_age : Z)
    (reduction_rate : float) : result projection :=
  let raw := total_pension_raw chain in
  if retire_age <? npa then
    let years_early := npa - retire_age in
    y <- float_of_int years_early ;;
    let total_reduction := (y * reduction_rate)%float in
    r <- to_float raw ;;
    let final := (r * (1 - total_reduction))%float in
    Ok (mkProjection raw (Float final) (EarlyRetirement total_reduction years_early))
  else
    Ok (mkProjection raw raw FullEntitlement).

(** One execution: the new session state, and the projection or the
    exception that stopped the script. An exception leaves the session state
    as the statements before it made it. *)
Definition script (now : string) (w : widgets) (st : session_state)
    : session_state * result projection :=
  let cls := class_Block now in
  let chain := initialise cls st in
  match button_handler cls w chain with
  | Error e => (Some chain, Error e)
  | Ok chain' =>
      (Some chain', project chain' (w_npa w) (w_retire_age w) (w_reduction w / 100)%float)
  end.

(** The session states a sequence of executions can reach. *)
Inductive reachable : session_state -> Prop :=
| reachable_start : reachable None
| reachable_run now w st : reachable st -> reachable (fst (script now w st)).

(** The session after a list of executions, oldest first. *)
Definition run (trace : list (string * widgets)) (st : session_state) : session_state :=
  fold_left (fun s nw => fst (script (fst nw) (snd nw) s)) trace st.

(** ** Chain integrity, as predicates on a ledger *)

Definition genesis_first (chain : list Block) : Prop :=
  exists g, nth_error chain 0 = Some g /\
            index g = 0 /\ prev_hash g = "0" /\ record g = genesis_record.

Definition dense (chain : list Block) : Prop :=
  forall i b, nth_error chain i = Some b -> index b = Z.of_nat i.

Definition linked (chain : list Block) : Prop :=
  forall i p b,
    nth_error chain i = Some p -> nth_error chain (S i) = Some b ->
    prev_hash b = hash_block p.

Definition chain_integrity (chain : list Block) : Prop :=
  genesis_first chain /\ dense chain /\ linked chain.

Definition session_integrity (st : session_state) : Prop :=
  match st with
  | None => True
  | Some chain => chain_integrity chain
  end.

(** The ledgers that start from a genesis block and grow by [append] only,
    whatever the record and whichever execution's class object builds it. *)
Inductive built : list Block -> Prop :=
| built_genesis cls : built [new_Block cls 0 genesis_record "0" None]
| built_append cls r chain chain' :
    built chain -> append cls r chain = Ok chain' -> built chain'.

Definition session_built (st : session_state) : Prop :=
  match st with
  | None => True
  | Some chain => built chain
  end.

(** Forward walk over a ledger: the position of the first block whose index
    is not its position or whose [prev_hash] is not the recomputed hash of the
    block before it. The script has no such walk; it is the decidable form of
    [dense] and [linked], used to say what the script never checks. *)
Fixpoint first_divergence (prev : Block) (i : nat) (rest : list Block) : option nat :=
  match rest with
  | [] => None
  | b :: rest' =>
      if (index b =? Z.of_nat i) && (prev_hash b =? hash_block prev)%string
      then first_divergence b (S i) rest'
      else Some i
  end.

Definition divergence (chain : list Block) : option nat :=
  match chain with
  | [] => Some O
  | g :: rest =>
      if (index g =? 0) && (prev_hash g =? "0")%string
      then first_divergence g 1 rest
      else Some O
  end.

(** Overwriting the block at one position, as a tamperer would. *)
Fixpoint overwrite (i : nat) (b : Block) (chain : list Block) : list Block :=
  match chain, i with
  | [], _ => []
  | _ :: rest, O => b :: rest
  | x :: rest, S k => x :: overwrite k b rest
  end.

(** The double [final_pension] is computed from in the early branch. *)
Definition raw_float (chain : list Block) : float :=
  match total_pension_raw chain with
  | Int _ => 0
  | Float x => x
  end.

(** The reduction a projection reports: the early branch's
    [total_reduction]; the other branch applies none. *)
Definition reduction_applied (p : projection) : float :=
  match status_msg p with
  | EarlyRetirement total_reduction _ => total_reduction
  | FullEntitlement => 0
  end.

(** A method call inside an execution, with what it could read and write:
    the session state and the class object. *)
Record env : Type := mkEnv {
  env_session : session_state;
  env_class : BlockClass
}.

Definition call_hash_block (self : Block) (rho : env) : string * env :=
  (hash_block self, rho).

(** The characters of a string. *)
Fixpoint occurs (c : ascii) (s : string) : bool :=
  match s with
  | EmptyString => false
  | String x rest => Ascii.eqb c x || occurs c rest
  end.

(** Every character of a string satisfies [P]. *)
Fixpoint allb (P : ascii -> bool) (s : string) : bool :=
  match s with
  | EmptyString => true
  | String x rest => P x && allb P rest
  end.

Definition is_digit (c : ascii) : bool :=
  (48 <=? nat_of_ascii c)%nat && (nat_of_ascii c <=? 57)%nat.

(** The characters [str(int)] can print, and those [repr(float)] can. *)
Definition int_char (c : ascii) : bool :=
  is_digit c || Ascii.eqb c "-".

Definition float_char (c : ascii) : bool :=
  int_char c || occurs c ".e+naif".

(** The sign of a double as the encoding has it: [signed s x] when [x] is a
    zero, a finite number or an infinity of sign bit [s] (so not a NaN);
    [signed_nonzero] leaves the zeros out. *)
Definition signed (s : bool) (x : spec_float) : Prop :=
  match x with
  | S754_zero s' | S754_infinity s' | S754_finite s' _ _ => s' = s
  | S754_nan => False
  end.

Definition signed_nonzero (s : bool) (x : spec_float) : Prop :=
  match x with
  | S754_infinity s' | S754_finite s' _ _ => s' = s
  | _ => False
  end.

(** The double 1.0. *)
Definition sf_one : spec_float := S754_finite false 4503599627370496 (-52).

(** ** A worked session

    Two executions: the page opens, then the button is pressed 42 seconds
    later with the widgets at 2025, 50000, 1/49 and 2 percent. *)

Definition idle_widgets : widgets :=
  mkWidgets 2025 50000 D49 2 false 67 65 4.

Definition press_widgets : widgets :=
  mkWidgets 2025 50000 D49 2 true 67 65 4.

Definition example_trace : list (string * widgets) :=
  [("2025-03-01 09:00:00", idle_widgets); ("2025-03-01 09:00:42", press_widgets)].

Definition example_genesis : Block :=
  mkBlock 0 genesis_record "0" "2025-03-01 09:00:00".

Definition example_record : PensionRecord :=
  mkPensionRecord 2025 50000 (1 / 49) (2 / 100).

Definition example_block : Block :=
  mkBlock 1 example_record (hash_block example_genesis) "2025-03-01 09:00:42".

Definition example_ledger : list Block :=
  [example_genesis; example_block].

(** A third execution presses the button again, for 2026 and 52000; then
    the stored salary of block 1 is overwritten. *)
Definition second_press : widgets :=
  mkWidgets 2026 52000 D49 2 true 67 65 4.

Definition longer_ledger : list Block :=
  initialise (class_Block "")
    (run (example_trace ++ [("2025-03-01 09:03:10", second_press)]) None).

Definition forged_block : Block :=
  mkBlock 1 (mkPensionRecord 2025 90000 (1 / 49) (2 / 100))
    (hash_block example_genesis) "2025-03-01 09:00:42".

Definition forged_ledger : list Block :=
  overwrite 1 forged_block longer_ledger.

(** Two blocks that differ only in where [prev_hash] ends and [timestamp]
    begins. *)
Definition split_early : Block :=
  mkBlock 1 example_record "81ae1b85" "65a0 2025-03-01 09:00:42".

Definition split_late : Block :=
  mkBlock 1 example_record "81ae1b8565a0" " 2025-03-01 09:00:42".

(** A session whose only contribution has a salary of [2^-1069], and a
    retirement 26 years early at 4 percent a year. *)
Definition tiny_widgets : widgets :=
  mkWidgets 2025 0x1p-1069 D49 2 true 76 50 4.

Definition tiny_ledger : list Block :=
  initialise (class_Block "")
    (fst (script "2025-03-01 09:00:00" tiny_widgets None)).

(** ** The page (lines 72-100)

    The metrics, the status line and the ledger table, as text. Formatting
    with [.2f] and [%] prints the decimal nearest to the double, ties to
    even. *)

Module Format.

(** Digits in groups of three from the right, with commas between. *)
Fixpoint group_from (s : string) (remaining : nat) : string :=
  match s with
  | EmptyString => ""
  | String c rest =>
      String c
        (match rest with
         | EmptyString => ""
         | _ => (if (Nat.pred remaining mod 3 =? 0)%nat then "," else "") ++
                group_from rest (Nat.pred remaining)
         end)
  end.

Definition group (digits : string) : string :=
  group_from digits (String.length digits).

(** [num / den] rounded to the nearest integer, ties to even. *)
Definition round_div (num den : Z) : Z :=
  let q := num / den in
  let r := 2 * (num mod den) in
  if r <? den then q
  else if den <? r then q + 1
  else if Z.even q then q else q + 1.

(** [m * 2^e * 10^p], correctly rounded. *)
Definition scaled (p : nat) (m : positive) (e : Z) : Z :=
  if 0 <=? e then Z.pos m * 2 ^ e * 10 ^ Z.of_nat p
  else round_div (Z.pos m * 10 ^ Z.of_nat p) (2 ^ (- e)).

Definition fixed_digits (p : nat) (grouped : bool) (N : Z) : string :=
  let whole := Render.str_int (N / 10 ^ Z.of_nat p) in
  let part := Render.str_int (N mod 10 ^ Z.of_nat p) in
  (if grouped then group whole else whole) ++
  match p with
  | O => ""
  | _ => "." ++ Render.zeros (p - String.length part) ++ part
  end.

(** [format(x, '.pf')] and [format(x, ',.pf')]. *)
Definition format_fixed (p : nat) (grouped : bool) (x : float) : string :=
  match Prim2SF x with
  | S754_nan => "nan"
  | S754_infinity s => if s then "-inf" else "inf"
  | S754_zero s => (if s then "-" else "") ++ fixed_digits p grouped 0
  | S754_finite s m e =>
      (if s then "-" else "") ++ fixed_digits p grouped (scaled p m e)
  end.

(** [format(x, '.p%')]: the double is multiplied by 100 first. *)
Definition format_percent (p : nat) (x : float) : string :=
  format_fixed p false (x * 100) ++ "%".

End Format.

(** What the display code can raise beside the exceptions of the core. *)
Inductive raised : Type :=
| Core (e : exn)
| ZeroDivisionError
| ValueError.

Inductive outcome (A : Type) : Type :=
| Shown (a : A)
| Raised (e : raised).

Arguments Shown {A} a.
Arguments Raised {A} e.

Definition and_then {A B : Type} (m : outcome A) (k : A -> outcome B) : outcome B :=
  match m with
  | Shown a => k a
  | Raised e => Raised e
  end.

Definition of_result {A : Type} (r : result A) : outcome A :=
  match r with
  | Ok a => Shown a
  | Error e => Raised (Core e)
  end.

(** [a / b] on doubles raises when the divisor is a zero. *)
Definition float_div (a b : float) : outcome float :=
  if (b =? 0)%float then Raised ZeroDivisionError else Shown (a / b)%float.

(** [int(x)]: truncation toward zero; no integer for an infinity or a NaN. *)
Definition int_of_float (x : float) : outcome Z :=
  match Prim2SF x with
  | S754_nan => Raised ValueError
  | S754_infinity _ => Raised (Core OverflowError)
  | S754_zero _ => Shown 0
  | S754_finite s m e =>
      let a := if 0 <=? e then Z.pos m * 2 ^ e else Z.pos m / 2 ^ (- e) in
      Shown (if s then - a else a)
  end.

(** [max(total_pension_raw, 1)]: the integer 1 when it is greater, else the
    total itself. *)
Definition max_with_one (raw : number) : number :=
  match raw with
  | Int z => if z <? 1 then Int 1 else Int z
  | Float x => if (x <? 1)%float then Int 1 else Float x
  end.

(** [a / b] on the script's numbers; the integers met here are 0 and 1. *)
Definition true_div (a b : number) : outcome float :=
  and_then (of_result (to_float a)) (fun x =>
  and_then (of_result (to_float b)) (fun y =>
  float_div x y)).

(** [f"£{n:,.2f}"]. *)
Definition pounds (n : number) : outcome string :=
  and_then (of_result (to_float n)) (fun x =>
  Shown ("£" ++ Format.format_fixed 2 true x)).

(** Lines 76-79. *)
Record metrics : Type := mkMetrics {
  accrued_base_pension : string;
  adjustment_factor : string;
  final_annual_payout : string
}.

Definition show_metrics (p : projection) : outcome metrics :=
  and_then (pounds (raw_total p)) (fun c1 =>
  and_then (true_div (final_pension p) (max_with_one (raw_total p))) (fun factor =>
  and_then (pounds (final_pension p)) (fun c3 =>
  Shown (mkMetrics c1 (Format.format_percent 0 factor) c3)))).

(** The text of [status_msg] (lines 67 and 70). *)
Definition status_text (s : status) : string :=
  match s with
  | EarlyRetirement total_reduction years_early =>
      "⚠️ Early Retirement: " ++ Format.format_percent 0 total_reduction ++
      " total reduction applied (" ++ Render.str_int years_early ++
      " years early)."
  | FullEntitlement =>
      "✅ Retirement at or after NPA: 100% of accrued pension awarded."
  end.

(** Lines 86-95: one dictionary per block after the first. *)
Record row : Type := mkRow {
  Year : Z;
  Salary : string;
  Accrual : string;
  Inflation : string;
  Pension_Earned : string;
  Block_Hash : string
}.

Definition table_row (block : Block) : outcome row :=
  let unit := calculate_unit (record block) in
  and_then (float_div 1 (accrual_rate (record block))) (fun inverse =>
  and_then (int_of_float inverse) (fun denominator =>
  Shown (mkRow (year (record block))
           ("£" ++ Format.format_fixed 2 true (salary (record block)))
           ("1/" ++ Render.str_int denominator)
           (Format.format_percent 1 (cpi_index (record block)))
           ("£" ++ Format.format_fixed 2 true unit)
           (substring 0 15 (hash_block block) ++ "...")))).

Fixpoint table_rows (blocks : list Block) : outcome (list row) :=
  match blocks with
  | [] => Shown []
  | block :: rest =>
      and_then (table_row block) (fun r =>
      and_then (table_rows rest) (fun rs =>
      Shown (r :: rs)))
  end.

Definition df_data (chain : list Block) : outcome (list row) :=
  table_rows (skipn 1 chain).

(** Lines 97-100. *)
Inductive ledger_view : Type :=
| Table (rows : list row)
| NoContributions.

Definition show_ledger (chain : list Block) : outcome ledger_view :=
  and_then (df_data chain) (fun rows =>
  Shown (match rows with
         | [] => NoContributions
         | _ => Table rows
         end)).

Record page : Type := mkPage {
  page_metrics : metrics;
  page_info : string;
  page_ledger : ledger_view
}.

(** Lines 73-100. *)
Definition display (chain : list Block) (p : projection) : outcome page :=
  and_then (show_metrics p) (fun m =>
  and_then (show_ledger chain) (fun l =>
  Shown (mkPage m (status_text (status_msg p)) l))).

(** One whole execution, page included. *)
Definition execution (now : string) (w : widgets) (st : session_state)
    : session_state * outcome page :=
  let cls := class_Block now in
  let chain := initialise cls st in
  match button_handler cls w chain with
  | Error e => (Some chain, Raised (Core e))
  | Ok chain' =>
      (Some chain',
       and_then
         (of_result (project chain' (w_npa w) (w_retire_age w) (w_reduction w / 100)%float))
         (display chain'))
  end.

(** The record the button handler builds from the widgets (lines 46-47). *)
Definition widget_record (w : widgets) : PensionRecord :=
  mkPensionRecord (w_year w) (w_salary w)
    (1 / denominator_value (w_accrual_denom w)) (w_cpi w / 100).

Definition pressed (nw : string * widgets) : bool := w_button (snd nw).

(** The text of the option picked in the select box. *)
Definition denominator_text (d : denominator) : string :=
  match d with
  | D49 => "49"
  | D57 => "57"
  | D60 => "60"
  end.

Definition is_hex (c : ascii) : bool :=
  is_digit c || ((97 <=? nat_of_ascii c)%nat && (nat_of_ascii c <=? 102)%nat).

(** ** The builtin [sum] from CPython 3.12 on

    The float loop of [sum] carries Neumaier's compensation: beside the running
    total [f] it keeps the rounding errors of the additions in [c], and adds
    [c] to the total at the end when it is finite and not zero. The first
    item is still added to the integer [0] as before. *)

Definition neumaier (fc : float * float) (x : float) : float * float :=
  let '(f, c) := fc in
  let t := (f + x)%float in
  (t, if (abs x <=? abs f)%float
      then (c + ((f - t) + x))%float
      else (c + ((x - t) + f))%float).

Definition compensated (fc : float * float) : float :=
  let '(f, c) := fc in
  if negb (c =? 0)%float && is_finite c then (f + c)%float else f.

Definition py_sum_compensated (items : list float) : number :=
  match items with
  | [] => Int 0
  | x :: rest => Float (compensated (fold_left neumaier rest ((0 + x)%float, 0%float)))
  end.

(** Line 61 on CPython 3.12 and later. *)
Definition total_pension_raw_compensated (chain : list Block) : number :=
  py_sum_compensated (map (fun b => calculate_unit (record b)) (skipn 1 chain)).

(** A session with three contributions: salaries of 30000, 31000 and 31000
    at 1/49 and 2 percent. *)
Definition three_trace : list (string * widgets) :=
  [("2025-03-01 09:00:00", mkWidgets 2025 30000 D49 2 false 67 65 4);
   ("2025-03-01 09:01:00", mkWidgets 2025 30000 D49 2 true 67 65 4);
   ("2025-03-01 09:02:00", mkWidgets 2026 31000 D49 2 true 67 65 4);
   ("2025-03-01 09:03:00", mkWidgets 2027 31000 D49 2 true 67 65 4)].

Definition three_first : Block :=
  mkBlock 1 (mkPensionRecord 2025 30000 (1 / 49) (2 / 100))
    (hash_block example_genesis) "2025-03-01 09:01:00".

Definition three_second : Block :=
  mkBlock 2 (mkPensionRecord 2026 31000 (1 / 49) (2 / 100))
    (hash_block three_first) "2025-03-01 09:02:00".

Definition three_third : Block :=
  mkBlock 3 (mkPensionRecord 2027 31000 (1 / 49) (2 / 100))
    (hash_block three_second) "2025-03-01 09:03:00".

Definition three_ledger : list Block :=
  [example_genesis; three_first; three_second; three_third].

(** ** Reading a printed double back

    What [repr] prints for a finite double is a decimal: digits with at most
    one point, and an exponent after [e]. [decode] reads it as a coefficient
    and a power of ten, the way [float(...)] starts reading it: ["1.5e-07"]
    is [15 * 10^-8]. *)

Definition digit_value (c : ascii) : Z := Z.of_nat (nat_of_ascii c) - 48.

Fixpoint digits_value (acc : Z) (s : string) : Z :=
  match s with
  | EmptyString => acc
  | String c rest => digits_value (10 * acc + digit_value c) rest
  end.

Fixpoint split_on (c : ascii) (s : string) : string * option string :=
  match s with
  | EmptyString => (EmptyString, None)
  | String x rest =>
      if Ascii.eqb c x then (EmptyString, Some rest)
      else let '(before, after) := split_on c rest in (String x before, after)
  end.

Definition parse_exponent (s : string) : Z :=
  match s with
  | String "-" rest => - digits_value 0 rest
  | String "+" rest => digits_value 0 rest
  | _ => 0
  end.

Definition decode (s : string) : Z * Z :=
  let '(mantissa, exponent) := split_on "e" s in
  let '(whole, fraction) := split_on "." mantissa in
  let f := match fraction with Some f => f | None => EmptyString end in
  (digits_value 0 (whole ++ f),
   match exponent with Some t => parse_exponent t | None => 0 end
   - Z.of_nat (String.length f)).

(** [v] lies in the interval from [lo] to [hi], the bounds included when
    [closed]. *)
Definition between (closed : bool) (lo v hi : Z) : Prop :=
  if closed then lo <= v <= hi else lo < v < hi.

(** The decimal [c * 10^k] lies in the rounding interval [L * 2^E, H * 2^E],
    both sides brought to the common denominator of [Render.scale]. *)
Definition in_rounding_interval (closed : bool) (L H E c k : Z) : Prop :=
  between closed (L * fst (Render.scale E k)) (c * snd (Render.scale E k))
    (H * fst (Render.scale E k)).

(** The mantissa and exponent of a finite double: at most 53 bits, and
    exactly 53 unless the exponent is the least one. *)
Definition canonical (m : positive) (e : Z) : Prop :=
  -1074 <= e /\ Z.pos m < 2 ^ 53 /\ (e = -1074 \/ 2 ^ 52 <= Z.pos m).

(** * Properties *)

(** ** The tail of a ledger *)

Lemma last_block_snoc (chain : list Block) (b : Block) :
  last_block (chain ++ [b]) = Ok b.
Proof.
  unfold last_block. now rewrite rev_app_distr.
Qed.

Lemma last_block_inv (chain : list Block) (t : Block) :
  last_block chain = Ok t -> exists front, chain = (front ++ [t])%list.
Proof.
  unfold last_block. destruct (rev chain) as [|b l] eqn:E; [discriminate|].
  intros [= ->]. exists (rev l).
  rewrite <- (rev_involutive chain), E. reflexivity.
Qed.

Lemma last_block_nonempty (chain : list Block) :
  chain <> [] -> exists t, last_block chain = Ok t.
Proof.
  intros Hne. destruct (exists_last Hne) as (front & t & ->).
  exists t. apply last_block_snoc.
Qed.

Lemma last_block_nth (chain : list Block) (t : Block) :
  last_block chain = Ok t ->
  nth_error chain (List.length chain - 1) = Some t.
Proof.
  intros H. destruct (last_block_inv _ H) as [front ->].
  rewrite length_app. simpl.
  replace (List.length front + 1 - 1)%nat with (List.length front) by lia.
  rewrite nth_error_app2 by lia. now rewrite Nat.sub_diag.
Qed.

(** ** [append] *)

Lemma append_snoc (cls : BlockClass) (r : PensionRecord) (chain : list Block)
    (t : Block) :
  last_block chain = Ok t ->
  append cls r chain =
  Ok (chain ++ [mkBlock (Z.of_nat (List.length chain)) r (hash_block t)
                        (timestamp_default cls)])%list.
Proof.
  intros H. unfold append. now rewrite H.
Qed.

Lemma append_error (cls : BlockClass) (r : PensionRecord) (chain : list Block)
    (e : exn) :
  append cls r chain = Error e -> chain = [].
Proof.
  destruct chain as [|b l]; [reflexivity|].
  destruct (@last_block_nonempty (b :: l)) as [t Ht]; [discriminate|].
  rewrite (append_snoc _ _ _ Ht). discriminate.
Qed.

(** ** Integrity is kept by every append *)

Lemma genesis_first_nonempty (chain : list Block) :
  genesis_first chain -> chain <> [].
Proof.
  intros (g & Hg & _) ->. discriminate.
Qed.

Lemma integrity_genesis (cls : BlockClass) :
  chain_integrity [new_Block cls 0 genesis_record "0" None].
Proof.
  repeat split.
  - eexists. simpl. repeat split.
  - intros [|[|i]] b; simpl; intros [=]. now subst.
  - intros [|i] p b; simpl; intros _ [=].
Qed.

Lemma integrity_snoc (chain : list Block) (t : Block) (r : PensionRecord)
    (ts : string) :
  chain_integrity chain -> last_block chain = Ok t ->
  chain_integrity
    (chain ++ [mkBlock (Z.of_nat (List.length chain)) r (hash_block t) ts]).
Proof.
  intros (Hg & Hd & Hl) Ht.
  pose proof (genesis_first_nonempty Hg) as Hne.
  assert (Hlen : (0 < List.length chain)%nat).
  { destruct chain; [congruence | simpl; lia]. }
  repeat split.
  - destruct Hg as (g & Hg0 & Hg'). exists g. split; [|exact Hg'].
    rewrite nth_error_app1 by exact Hlen. exact Hg0.
  - intros i b Hb.
    destruct (Nat.lt_ge_cases i (List.length chain)) as [Hi|Hi].
    + rewrite nth_error_app1 in Hb by exact Hi. now apply Hd.
    + rewrite nth_error_app2 in Hb by exact Hi.
      destruct (i - List.length chain)%nat as [|k] eqn:Ek; simpl in Hb.
      * injection Hb as <-. simpl. f_equal. lia.
      * destruct k; discriminate.
  - intros i p b Hp Hb.
    destruct (Nat.lt_ge_cases (S i) (List.length chain)) as [Hi|Hi].
    + rewrite nth_error_app1 in Hp by lia.
      rewrite nth_error_app1 in Hb by exact Hi.
      now apply (Hl i).
    + rewrite nth_error_app2 in Hb by exact Hi.
      destruct (S i - List.length chain)%nat as [|k] eqn:Ek; simpl in Hb.
      * injection Hb as <-. simpl.
        assert (i = (List.length chain - 1)%nat) as -> by lia.
        rewrite nth_error_app1 in Hp by lia.
        rewrite (last_block_nth _ Ht) in Hp. now injection Hp as ->.
      * destruct k; discriminate.
Qed.

Lemma integrity_append (cls : BlockClass) (r : PensionRecord)
    (chain chain' : list Block) :
  chain_integrity chain -> append cls r chain = Ok chain' ->
  chain_integrity chain'.
Proof.
  intros Hc Ha.
  destruct (last_block_nonempty (genesis_first_nonempty (proj1 Hc))) as [t Ht].
  rewrite (append_snoc _ _ _ Ht) in Ha. injection Ha as <-.
  now apply integrity_snoc.
Qed.

Lemma integrity_initialise (cls : BlockClass) (st : session_state) :
  session_integrity st -> chain_integrity (initialise cls st).
Proof.
  destruct st as [chain|]; simpl; [trivial|].
  intros _. apply integrity_genesis.
Qed.

Lemma integrity_button (cls : BlockClass) (w : widgets) (chain chain' : list Block) :
  chain_integrity chain -> button_handler cls w chain = Ok chain' ->
  chain_integrity chain'.
Proof.
  unfold button_handler. destruct (w_button w).
  - intros Hc Ha. exact (integrity_append _ _ Hc Ha).
  - now intros Hc [= <-].
Qed.

Lemma integrity_script (now : string) (w : widgets) (st : session_state) :
  session_integrity st -> session_integrity (fst (script now w st)).
Proof.
  intros Hst. unfold script.
  pose proof (integrity_initialise (class_Block now) st Hst) as Hi.
  destruct (button_handler _ w _) as [chain'|e] eqn:Hb; simpl.
  - exact (integrity_button _ _ Hi Hb).
  - exact Hi.
Qed.

Lemma integrity_reachable (st : session_state) :
  reachable st -> session_integrity st.
Proof.
  induction 1 as [|now w st _ IH]; [exact I|].
  now apply integrity_script.
Qed.

Lemma integrity_built (chain : list Block) :
  built chain -> chain_integrity chain.
Proof.
  induction 1 as [cls|cls r chain chain' _ IH Ha].
  - apply integrity_genesis.
  - exact (integrity_append _ _ IH Ha).
Qed.

Lemma built_nonempty (chain : list Block) : built chain -> chain <> [].
Proof.
  intros H. exact (genesis_first_nonempty (proj1 (integrity_built H))).
Qed.

(** ** Executions only ever build *)

Lemma built_script (now : string) (w : widgets) (st : session_state) :
  session_built st -> session_built (fst (script now w st)).
Proof.
  intros Hst. unfold script.
  assert (Hi : built (initialise (class_Block now) st)).
  { destruct st as [chain|]; simpl; [exact Hst | apply built_genesis]. }
  destruct (button_handler _ w _) as [chain'|e] eqn:Hb; simpl; [|exact Hi].
  unfold button_handler in Hb. destruct (w_button w).
  - exact (built_append _ _ Hi Hb).
  - now injection Hb as <-.
Qed.

Lemma reachable_built (chain : list Block) :
  reachable (Some chain) -> built chain.
Proof.
  intros H. change (session_built (Some chain)).
  induction H as [|now w st _ IH]; [exact I|].
  now apply built_script.
Qed.

Lemma run_reachable (trace : list (string * widgets)) (st : session_state) :
  reachable st -> reachable (run trace st).
Proof.
  revert st. induction trace as [|[now w] trace IH]; intros st H; [exact H|].
  apply IH. simpl. now apply reachable_run.
Qed.

Lemma example_run : run example_trace None = Some example_ledger.
Proof. vm_compute. reflexivity. Qed.

Lemma example_reachable : reachable (Some example_ledger).
Proof.
  rewrite <- example_run. apply run_reachable. apply reachable_start.
Qed.

Lemma example_built : built example_ledger.
Proof. exact (reachable_built example_reachable). Qed.

(** ** Chain integrity *)

(** C1. Every ledger grown from a genesis-only chain by appends starts with
    the genesis block (index 0, previous hash ["0"], the zero-valued sentinel
    record), numbers its blocks by position, and links each later block to
    the recomputed hash of the block before it. *)
Theorem chain_integrity_invariant (chain : list Block) :
  built chain ->
  (exists g, nth_error chain 0 = Some g /\ index g = 0 /\
             prev_hash g = "0" /\ record g = mkPensionRecord 2023 0 0 0) /\
  (forall i b, nth_error chain i = Some b -> index b = Z.of_nat i) /\
  (forall i p b, nth_error chain i = Some p -> nth_error chain (S i) = Some b ->
                 prev_hash b = hash_block p).
Proof.
  intros H. exact (integrity_built H).
Qed.

Lemma chain_integrity_invariant_witness :
  built example_ledger /\
  (exists g, nth_error example_ledger 0 = Some g /\ index g = 0 /\
             prev_hash g = "0" /\ record g = mkPensionRecord 2023 0 0 0) /\
  (forall i b, nth_error example_ledger i = Some b -> index b = Z.of_nat i) /\
  (forall i p b, nth_error example_ledger i = Some p ->
                 nth_error example_ledger (S i) = Some b ->
                 prev_hash b = hash_block p).
Proof.
  split.
  - exact example_built.
  - exact (chain_integrity_invariant example_built).
Defined.

(** ** Append *)

(** C9. Appending a record to a ledger that has a tail succeeds and stores
    one new block at the end: the length grows by one, the new block's index
    is the new length less one, its previous hash is the hash of the old
    tail, it carries the record, and every earlier position is untouched. *)
Theorem append_monotone (cls : BlockClass) (r : PensionRecord) (chain : list Block) :
  chain <> [] ->
  exists tail b,
    last_block chain = Ok tail /\
    append cls r chain = Ok (chain ++ [b])%list /\
    List.length (chain ++ [b]) = S (List.length chain) /\
    index b = Z.of_nat (List.length (chain ++ [b])) - 1 /\
    prev_hash b = hash_block tail /\
    record b = r /\
    last_block (chain ++ [b]) = Ok b /\
    (forall i, (i < List.length chain)%nat ->
               nth_error (chain ++ [b]) i = nth_error chain i).
Proof.
  intros Hne. destruct (last_block_nonempty Hne) as [tail Ht].
  exists tail. eexists. split; [exact Ht|].
  split; [exact (append_snoc cls r _ Ht)|].
  rewrite length_app. simpl. repeat split.
  - lia.
  - lia.
  - apply last_block_snoc.
  - intros i Hi. now apply nth_error_app1.
Qed.

Lemma append_monotone_witness :
  example_ledger <> [] /\
  exists tail b,
    last_block example_ledger = Ok tail /\
    append (class_Block "2025-03-01 09:05:00") example_record example_ledger =
    Ok (example_ledger ++ [b])%list /\
    List.length (example_ledger ++ [b]) = S (List.length example_ledger) /\
    index b = Z.of_nat (List.length (example_ledger ++ [b])) - 1 /\
    prev_hash b = hash_block tail /\
    record b = example_record /\
    last_block (example_ledger ++ [b]) = Ok b /\
    (forall i, (i < List.length example_ledger)%nat ->
               nth_error (example_ledger ++ [b]) i = nth_error example_ledger i).
Proof.
  assert (Hne : example_ledger <> []) by discriminate.
  split; [exact Hne|].
  exact (append_monotone (class_Block "2025-03-01 09:05:00") example_record Hne).
Defined.

(** Pressing the button in an execution is exactly one [append] of the
    record read from the widgets. *)
Lemma script_press (now : string) (w : widgets) (chain : list Block) :
  w_button w = true -> chain <> [] ->
  exists tail,
    last_block chain = Ok tail /\
    fst (script now w (Some chain)) =
    Some (chain ++
          [mkBlock (Z.of_nat (List.length chain))
             (mkPensionRecord (w_year w) (w_salary w)
                (1 / denominator_value (w_accrual_denom w)) (w_cpi w / 100))
             (hash_block tail) now])%list.
Proof.
  intros Hb Hne. destruct (last_block_nonempty Hne) as [tail Ht].
  exists tail. split; [exact Ht|].
  unfold script, button_handler. simpl initialise. rewrite Hb.
  now rewrite (append_snoc _ _ _ Ht).
Qed.

Lemma script_idle (now : string) (w : widgets) (chain : list Block) :
  w_button w = false -> fst (script now w (Some chain)) = Some chain.
Proof.
  intros Hb. unfold script, button_handler. simpl. now rewrite Hb.
Qed.

(** ** The ledger over a whole session *)

Lemma script_none (now : string) (w : widgets) :
  script now w None =
  script now w (Some [mkBlock 0 genesis_record "0" now]).
Proof. reflexivity. Qed.

Lemma script_step (now : string) (w : widgets) (chain : list Block) :
  chain <> [] ->
  exists ext,
    fst (script now w (Some chain)) = Some (chain ++ ext)%list /\
    map record ext = map (fun nw => widget_record (snd nw)) (filter pressed [(now, w)]) /\
    map timestamp ext = map fst (filter pressed [(now, w)]) /\
    map index ext =
    map (fun k => Z.of_nat (List.length chain + k)) (seq 0 (List.length ext)).
Proof.
  intros Hne. unfold pressed. simpl. destruct (w_button w) eqn:Hb.
  - destruct (script_press now w Hb Hne) as (tail & _ & Hs).
    eexists. split; [exact Hs|]. simpl. rewrite Nat.add_0_r. repeat split.
  - exists []. rewrite app_nil_r. split; [exact (script_idle now w chain Hb)|].
    repeat split.
Qed.

Lemma seq_offset (a n s : nat) :
  map (fun k => (a + k)%nat) (seq s n) = seq (a + s) n.
Proof.
  revert s. induction n as [|n IH]; intros s; simpl; [reflexivity|].
  f_equal. rewrite IH. f_equal. lia.
Qed.

Lemma run_from (trace : list (string * widgets)) (chain : list Block) :
  chain <> [] ->
  exists ext,
    run trace (Some chain) = Some (chain ++ ext)%list /\
    map record ext = map (fun nw => widget_record (snd nw)) (filter pressed trace) /\
    map timestamp ext = map fst (filter pressed trace) /\
    map index ext =
    map (fun k => Z.of_nat (List.length chain + k)) (seq 0 (List.length ext)).
Proof.
  revert chain. induction trace as [|[now w] trace IH]; intros chain Hne.
  - exists []. rewrite app_nil_r. repeat split.
  - destruct (script_step now w Hne) as (e1 & Hs & Hr1 & Ht1 & Hi1).
    assert (Hne' : (chain ++ e1)%list <> []).
    { destruct chain; [congruence | discriminate]. }
    destruct (IH _ Hne') as (e2 & Hrun & Hr2 & Ht2 & Hi2).
    exists (e1 ++ e2)%list.
    simpl run. rewrite Hs, Hrun, app_assoc. split; [reflexivity|].
    assert (Hf : filter pressed ((now, w) :: trace) =
                 (filter pressed [(now, w)] ++ filter pressed trace)%list)
      by exact (filter_app pressed [(now, w)] trace).
    rewrite Hf, !map_app, Hr1, Hr2, Ht1, Ht2, Hi1, Hi2.
    repeat split.
    rewrite !length_app, seq_app, map_app. f_equal.
    replace (0 + List.length e1)%nat with (List.length e1 + 0)%nat by lia.
    rewrite <- seq_offset, map_map.
    apply map_ext. intros k. f_equal. lia.
Qed.

Lemma run_first (now : string) (w : widgets) (trace : list (string * widgets)) :
  exists blocks,
    run ((now, w) :: trace) None =
    Some (mkBlock 0 genesis_record "0" now :: blocks) /\
    map record blocks =
    map (fun nw => widget_record (snd nw)) (filter pressed ((now, w) :: trace)) /\
    map timestamp blocks = map fst (filter pressed ((now, w) :: trace)) /\
    map index blocks = map (fun k => Z.of_nat (S k)) (seq 0 (List.length blocks)).
Proof.
  assert (Hne : [mkBlock 0 genesis_record "0" now] <> []) by discriminate.
  destruct (run_from ((now, w) :: trace) Hne) as (ext & Hrun & Hr & Ht & Hi).
  exists ext. split; [|now repeat split].
  simpl run in *. rewrite script_none. exact Hrun.
Qed.

(** ** Timestamps *)

Lemma script_timestamps (now : string) (w : widgets) (st : session_state)
    (chain : list Block) (b : Block) :
  fst (script now w st) = Some chain -> In b chain ->
  timestamp b = now \/ exists old, st = Some old /\ In b old.
Proof.
  unfold script.
  assert (Hi : forall x, In x (initialise (class_Block now) st) ->
                         timestamp x = now \/ exists old, st = Some old /\ In x old).
  { destruct st as [old|]; simpl.
    - intros x Hx. right. now exists old.
    - intros x [<-|[]]. now left. }
  destruct (button_handler _ w _) as [chain'|e] eqn:Hb; simpl.
  - intros [= <-] Hin. unfold button_handler in Hb.
    destruct (w_button w).
    + unfold append in Hb.
      destruct (last_block _) as [tail|e]; simpl in Hb; [|discriminate].
      injection Hb as <-. apply in_app_or in Hin as [Hin|[<-|[]]].
      * now apply Hi.
      * now left.
    + injection Hb as <-. now apply Hi.
  - intros [= <-] Hin. now apply Hi.
Qed.

Lemma run_timestamps (trace : list (string * widgets)) (st : session_state)
    (chain : list Block) (b : Block) :
  run trace st = Some chain -> In b chain ->
  (exists nw, In nw trace /\ timestamp b = fst nw) \/
  (exists old, st = Some old /\ In b old).
Proof.
  revert st. induction trace as [|[now w] trace IH]; intros st Hrun Hin.
  - right. now exists chain.
  - simpl in Hrun. destruct (IH _ Hrun Hin) as [(nw & Hnw & Ht)|(mid & Hmid & Hb)].
    + left. exists nw. split; [now right | exact Ht].
    + destruct (script_timestamps _ _ _ _ Hmid Hb) as [Ht|Hold].
      * left. exists (now, w). split; [now left | exact Ht].
      * now right.
Qed.

(** C10, as the code has it. The default of [timestamp] is evaluated once per
    execution of the class statement, and the class statement runs again in
    every execution of the script. So the genesis block carries the
    class-definition time of the first execution, and the blocks after it
    carry, in order, the class-definition times of the executions in which
    the button was pressed. Two blocks have the same timestamp exactly when
    the executions that built them read the same time: always when it is the
    same execution, otherwise only when the clock string did not change. *)
Theorem timestamp_per_execution (trace : list (string * widgets))
    (chain : list Block) :
  run trace None = Some chain ->
  map timestamp chain =
  match trace with
  | [] => []
  | first :: _ => fst first :: map fst (filter pressed trace)
  end.
Proof.
  destruct trace as [|[now w] trace]; [discriminate|].
  destruct (run_first now w trace) as (blocks & Hrun & _ & Ht & _).
  rewrite Hrun. intros [= <-]. simpl map at 1. now rewrite Ht.
Qed.

Lemma timestamp_per_execution_witness :
  run example_trace None = Some example_ledger /\
  map timestamp example_ledger =
  ["2025-03-01 09:00:00"; "2025-03-01 09:00:42"].
Proof.
  split.
  - exact example_run.
  - exact (timestamp_per_execution example_trace example_run).
Defined.

(** C10, as stated, fails: the genesis block is built by the execution that
    opens the page and the first contribution by a later one, whose class
    statement read the clock again. *)
Lemma timestamps_differ_across_executions :
  reachable (run example_trace None) /\
  option_map (map timestamp) (run example_trace None) =
  Some ["2025-03-01 09:00:00"; "2025-03-01 09:00:42"] /\
  ~ (forall chain b1 b2,
       reachable (Some chain) -> In b1 chain -> In b2 chain ->
       timestamp b1 = timestamp b2).
Proof.
  split; [apply run_reachable, reachable_start|].
  split; [now rewrite example_run|].
  intros H.
  specialize (H example_ledger example_genesis example_block example_reachable).
  simpl in H. discriminate H; auto.
Qed.

(** ** Aggregation *)

Lemma three_run : run three_trace None = Some three_ledger.
Proof. vm_compute. reflexivity. Qed.

(** C4. The raw total is the builtin sum of [calculate_unit] over the records
    of the blocks at positions 1 and up, in chain order: the integer 0 when
    there is none, else the doubles added from the left starting at [0 + u1]
    (with the compensation term on CPython 3.12 and later, which changes
    nothing for one contribution). The block at position 0 never enters,
    whatever its record. After a session the summands are the units of the
    records submitted, in the order of submission. *)
Theorem aggregation_skips_genesis :
  (forall g rest,
     total_pension_raw (g :: rest) =
     match map (fun b => calculate_unit (record b)) rest with
     | [] => Int 0
     | u :: us => Float (fold_left PrimFloat.add us (0 + u)%float)
     end) /\
  (forall g rest,
     total_pension_raw_compensated (g :: rest) =
     match map (fun b => calculate_unit (record b)) rest with
     | [] => Int 0
     | u :: us =>
         Float (compensated (fold_left neumaier us ((0 + u)%float, 0%float)))
     end) /\
  (forall g,
     total_pension_raw [g] = Int 0 /\ total_pension_raw_compensated [g] = Int 0) /\
  (forall g b,
     total_pension_raw [g; b] = Float (0 + calculate_unit (record b)) /\
     total_pension_raw_compensated [g; b] = Float (0 + calculate_unit (record b))) /\
  (forall now w trace chain,
     run ((now, w) :: trace) None = Some chain ->
     map (fun b => calculate_unit (record b)) (skipn 1 chain) =
     map (fun nw => calculate_unit (widget_record (snd nw)))
       (filter pressed ((now, w) :: trace))).
Proof.
  split; [reflexivity|]. split; [reflexivity|].
  split; [split; reflexivity|]. split; [split; reflexivity|].
  intros now w trace chain Hrun.
  destruct (run_first now w trace) as (blocks & Hrun' & Hr & _).
  rewrite Hrun' in Hrun. injection Hrun as <-. simpl skipn.
  rewrite <- (map_map record calculate_unit), Hr, map_map. reflexivity.
Qed.

(** Three contributions, where the two summations part in the last place. *)
Lemma aggregation_skips_genesis_witness :
  run three_trace None = Some three_ledger /\
  map (fun b => calculate_unit (record b)) (skipn 1 three_ledger) =
  map (fun nw => calculate_unit (widget_record (snd nw))) (filter pressed three_trace) /\
  total_pension_raw three_ledger = Float 1915.1020408163265 /\
  total_pension_raw_compensated three_ledger = Float 1915.1020408163263.
Proof.
  split; [exact three_run|].
  split;
    [exact (proj2 (proj2 (proj2 (proj2 aggregation_skips_genesis))) _ _ _ _ three_run)|].
  unfold three_ledger. split.
  - rewrite (proj1 aggregation_skips_genesis). vm_compute. reflexivity.
  - rewrite (proj1 (proj2 aggregation_skips_genesis)). vm_compute. reflexivity.
Defined.

(** *** The left-to-right sum, one contribution at a time *)

Lemma py_sum_snoc (x : float) (items : list float) (y : float) :
  py_sum ((x :: items) ++ [y]) =
  Float (match py_sum (x :: items) with
         | Int _ => y
         | Float acc => acc + y
         end).
Proof.
  simpl. now rewrite fold_left_app.
Qed.

(** The first contribution enters the total as [0 + unit]; every later one is
    added to the running total. *)
Lemma total_after_append (cls : BlockClass) (r : PensionRecord)
    (chain chain' : list Block) :
  built chain -> append cls r chain = Ok chain' ->
  total_pension_raw chain' =
  Float (match total_pension_raw chain with
         | Int _ => 0 + calculate_unit r
         | Float acc => acc + calculate_unit r
         end).
Proof.
  intros Hb Ha.
  destruct (last_block_nonempty (built_nonempty Hb)) as [t Ht].
  rewrite (append_snoc _ _ _ Ht) in Ha. injection Ha as <-.
  destruct chain as [|g rest]; [now apply built_nonempty in Hb|].
  unfold total_pension_raw. simpl skipn. rewrite map_app. simpl map.
  destruct (map _ rest) as [|x items]; [reflexivity|].
  rewrite py_sum_snoc. reflexivity.
Qed.

(** ** Hashing *)

(** C6. The digest of a block is a function of its four fields alone: it is
    the SHA-256 of their concatenated renderings. A call reads neither the
    session state nor the class object and leaves both as they were, so two
    calls on the same block, in whatever environment, give the same digest. *)
Theorem hash_block_deterministic :
  (forall i r p t,
     hash_block (mkBlock i r p t) =
     Sha256.hexdigest
       (Sha256.encode (Render.str_int i ++ repr_record r ++ p ++ t))) /\
  (forall self rho rho',
     fst (call_hash_block self rho) = fst (call_hash_block self rho')) /\
  (forall self rho, snd (call_hash_block self rho) = rho) /\
  (forall self rho,
     fst (call_hash_block self (snd (call_hash_block self rho))) =
     fst (call_hash_block self rho)).
Proof.
  repeat split.
Qed.

(** The digest recomputed for a stored block in any later execution is the
    one the next block recorded when it was appended. *)
Lemma stored_hash_recomputed (chain : list Block) (i : nat) (p b : Block)
    (rho : env) :
  built chain ->
  nth_error chain i = Some p -> nth_error chain (S i) = Some b ->
  fst (call_hash_block p rho) = prev_hash b.
Proof.
  intros Hb Hp Hn. symmetry.
  exact (proj2 (proj2 (integrity_built Hb)) i p b Hp Hn).
Qed.

(** ** The unit of a record *)

(** C8. [calculate_unit] is [salary * accrual_rate * (1 + cpi_index)] in
    double arithmetic, whatever the year. For 2025, 50000, 1/49 and 0.02 it
    is the double [4577558613598040 * 2^-42], which lies between 1040.8163
    and 1040.8164 and prints as 1040.816326530612. *)
Theorem unit_formula :
  (forall r,
     calculate_unit r =
     (salary r * accrual_rate r * (1 + cpi_index r))%float) /\
  (forall y y' s a c,
     calculate_unit (mkPensionRecord y s a c) =
     calculate_unit (mkPensionRecord y' s a c)) /\
  calculate_unit (mkPensionRecord 2025 50000 (1 / 49) 0.02) =
  (50000 * (1 / 49) * 1.02)%float /\
  Prim2SF (calculate_unit (mkPensionRecord 2025 50000 (1 / 49) 0.02)) =
  S754_finite false 4577558613598040 (-42) /\
  10408163 * 2 ^ 42 <= 4577558613598040 * 10000 < 10408164 * 2 ^ 42 /\
  Render.repr_float (calculate_unit (mkPensionRecord 2025 50000 (1 / 49) 0.02)) =
  "1040.816326530612".
Proof.
  split; [reflexivity|].
  split; [reflexivity|].
  split; [vm_compute; reflexivity|].
  split; [vm_compute; reflexivity|].
  split; [lia|].
  vm_compute. reflexivity.
Qed.

(** ** The projection *)

Lemma float_of_int_0 : float_of_int 0 = Ok 0%float.
Proof. vm_compute. reflexivity. Qed.

Lemma to_float_total (chain : list Block) :
  to_float (total_pension_raw chain) = Ok (raw_float chain).
Proof.
  unfold raw_float, total_pension_raw, py_sum.
  destruct (map _ (skipn 1 chain)); simpl.
  - exact float_of_int_0.
  - reflexivity.
Qed.

Lemma project_early (chain : list Block) (npa retire_age : Z) (rate y : float) :
  retire_age < npa -> float_of_int (npa - retire_age) = Ok y ->
  project chain npa retire_age rate =
  Ok (mkProjection (total_pension_raw chain)
        (Float (raw_float chain * (1 - y * rate)))
        (EarlyRetirement (y * rate) (npa - retire_age))).
Proof.
  intros Hlt Hy. unfold project.
  apply Z.ltb_lt in Hlt. rewrite Hlt, Hy. simpl.
  now rewrite to_float_total.
Qed.

Lemma project_full (chain : list Block) (npa retire_age : Z) (rate : float) :
  npa <= retire_age ->
  project chain npa retire_age rate =
  Ok (mkProjection (total_pension_raw chain) (total_pension_raw chain)
        FullEntitlement).
Proof.
  intros Hge. unfold project.
  apply Z.ltb_ge in Hge. now rewrite Hge.
Qed.

(** C3. Retiring before the normal pension age reduces the raw total by
    [years_early * reduction_rate]: the final pension is
    [raw * (1 - reduction)]. Retiring at or after it leaves the raw total as
    it is, with no reduction. At 67, 65 and 4 percent the reduction is 0.08
    and the final pension is [raw * 0.92]. *)
Theorem reduction_formula (chain : list Block) (npa retire_age : Z) (rate : float) :
  (retire_age < npa ->
   forall y, float_of_int (npa - retire_age) = Ok y ->
   exists p,
     project chain npa retire_age rate = Ok p /\
     raw_total p = total_pension_raw chain /\
     reduction_applied p = (y * rate)%float /\
     final_pension p = Float (raw_float chain * (1 - reduction_applied p))) /\
  (npa <= retire_age ->
   exists p,
     project chain npa retire_age rate = Ok p /\
     raw_total p = total_pension_raw chain /\
     status_msg p = FullEntitlement /\
     reduction_applied p = 0%float /\
     final_pension p = total_pension_raw chain) /\
  (exists p,
     project chain 67 65 (4 / 100) = Ok p /\
     reduction_applied p = 0.08%float /\
     final_pension p = Float (raw_float chain * 0.92)).
Proof.
  split; [|split].
  - intros Hlt y Hy. eexists. split; [exact (project_early chain rate Hlt Hy)|].
    repeat split.
  - intros Hge. eexists. split; [exact (project_full chain rate Hge)|].
    repeat split.
  - eexists. split.
    + apply project_early; [lia | vm_compute; reflexivity].
    + split; [vm_compute; reflexivity|].
      simpl. reflexivity.
Qed.

Lemma reduction_formula_witness :
  (65 < 67 /\ float_of_int (67 - 65) = Ok 2%float) /\
  exists p,
    project example_ledger 67 65 (4 / 100) = Ok p /\
    raw_total p = total_pension_raw example_ledger /\
    reduction_applied p = (2 * (4 / 100))%float /\
    final_pension p =
    Float (raw_float example_ledger * (1 - reduction_applied p)).
Proof.
  assert (Hlt : 65 < 67) by lia.
  assert (Hy : float_of_int (67 - 65) = Ok 2%float) by (vm_compute; reflexivity).
  split; [split; [exact Hlt | exact Hy]|].
  exact (proj1 (reduction_formula example_ledger 67 65 (4 / 100)) Hlt _ Hy).
Defined.

(** ** What the script checks, and what it does not *)

Lemma first_divergence_none (rest : list Block) (prev : Block) (i : nat) :
  (forall k b, nth_error rest k = Some b -> index b = Z.of_nat (i + k)) ->
  linked (prev :: rest) ->
  first_divergence prev i rest = None.
Proof.
  revert prev i. induction rest as [|b rest IH]; intros prev i Hd Hl; [reflexivity|].
  simpl.
  rewrite (Hd O b eq_refl), Nat.add_0_r, Z.eqb_refl.
  rewrite (Hl O prev b eq_refl eq_refl), String.eqb_refl. simpl.
  apply IH.
  - intros k x Hx. rewrite (Hd (S k) x Hx). f_equal. lia.
  - intros k p x Hp Hx. exact (Hl (S k) p x Hp Hx).
Qed.

Lemma divergence_none (chain : list Block) :
  chain_integrity chain -> divergence chain = None.
Proof.
  intros ((g & Hg & Hi & Hp & _) & Hd & Hl).
  destruct chain as [|g' rest]; [discriminate|].
  injection Hg as ->. simpl.
  rewrite Hi, Hp. simpl.
  apply first_divergence_none; [|exact Hl].
  intros k b Hb. exact (Hd (S k) b Hb).
Qed.

Lemma script_keeps_chain (now : string) (w : widgets) (chain : list Block) :
  chain <> [] ->
  exists chain',
    script now w (Some chain) =
    (Some chain', project chain' (w_npa w) (w_retire_age w) (w_reduction w / 100)) /\
    (chain' = chain \/ exists b, chain' = (chain ++ [b])%list).
Proof.
  intros Hne. unfold script, button_handler. simpl initialise.
  destruct (w_button w).
  - destruct (last_block_nonempty Hne) as [t Ht].
    rewrite (append_snoc _ _ _ Ht).
    eexists. split; [reflexivity|]. right. eexists. reflexivity.
  - exists chain. split; [reflexivity | now left].
Qed.

(** C2, as the code has it. Integrity comes from construction alone: on a
    ledger built by appends a forward walk that compares every index with its
    position and every [prev_hash] with the recomputed hash of the block
    before finds no divergence. The script makes no such walk: an execution
    keeps whatever chain the session holds, sound or not, extends it by at
    most one block and projects from it. *)
Theorem integrity_by_construction (chain : list Block) :
  built chain ->
  divergence chain = None /\
  (forall now w stored, stored <> [] ->
     exists chain',
       script now w (Some stored) =
       (Some chain',
        project chain' (w_npa w) (w_retire_age w) (w_reduction w / 100)) /\
       (chain' = stored \/ exists b, chain' = (stored ++ [b])%list)).
Proof.
  intros Hb. split.
  - exact (divergence_none (integrity_built Hb)).
  - intros now w stored Hne. exact (script_keeps_chain now w Hne).
Qed.

Lemma integrity_by_construction_witness :
  built example_ledger /\ divergence example_ledger = None.
Proof.
  split.
  - exact example_built.
  - exact (proj1 (integrity_by_construction example_built)).
Defined.

(** C2, as stated, fails: there is no verification in the script. With the
    salary of block 1 overwritten, block 2 no longer links to it, and the
    next execution still completes, keeps the forged chain and pays out on
    the forged salary. *)
Lemma forged_ledger_goes_unreported :
  divergence longer_ledger = None /\
  divergence forged_ledger = Some 2%nat /\
  script "2025-03-01 09:10:00" idle_widgets (Some forged_ledger) =
  (Some forged_ledger,
   Ok (mkProjection (total_pension_raw forged_ledger)
         (Float (raw_float forged_ledger * 0.92))
         (EarlyRetirement 0.08 2))) /\
  raw_float longer_ledger <> raw_float forged_ledger.
Proof.
  split; [vm_compute; reflexivity|].
  split; [vm_compute; reflexivity|].
  split; [vm_compute; reflexivity|].
  vm_compute. discriminate.
Qed.

(** ** The text that is hashed *)

Lemma occurs_app (c : ascii) (s1 s2 : string) :
  occurs c (s1 ++ s2) = occurs c s1 || occurs c s2.
Proof.
  induction s1 as [|x s1 IH]; simpl; [reflexivity|].
  now rewrite IH, orb_assoc.
Qed.

Lemma allb_app (P : ascii -> bool) (s1 s2 : string) :
  allb P (s1 ++ s2) = allb P s1 && allb P s2.
Proof.
  induction s1 as [|x s1 IH]; simpl; [reflexivity|].
  now rewrite IH, andb_assoc.
Qed.

Lemma allb_occurs (P : ascii -> bool) (c : ascii) (s : string) :
  allb P s = true -> P c = false -> occurs c s = false.
Proof.
  induction s as [|x s IH]; simpl; [reflexivity|].
  intros H Hc. apply andb_prop in H as [Hx Hs].
  rewrite (IH Hs Hc), orb_false_r.
  destruct (Ascii.eqb_spec c x) as [->|]; [congruence | reflexivity].
Qed.

Lemma allb_substring (P : ascii -> bool) (s : string) (n m : nat) :
  allb P s = true -> allb P (substring n m s) = true.
Proof.
  revert n m. induction s as [|x s IH]; intros n m H.
  - now destruct n, m.
  - simpl in H. apply andb_prop in H as [Hx Hs].
    destruct n as [|n]; simpl.
    + destruct m as [|m]; simpl; [reflexivity|].
      now rewrite Hx, IH.
    + now apply IH.
Qed.

Lemma allb_zeros (n : nat) : allb float_char (Render.zeros n) = true.
Proof.
  induction n as [|n IH]; simpl; [reflexivity | exact IH].
Qed.

Lemma allb_weaken (P Q : ascii -> bool) (s : string) :
  (forall c, P c = true -> Q c = true) -> allb P s = true -> allb Q s = true.
Proof.
  intros HPQ. induction s as [|x s IH]; simpl; [reflexivity|].
  intros H. apply andb_prop in H as [Hx Hs]. now rewrite (HPQ _ Hx), IH.
Qed.

(** The text before the first occurrence of a character is determined. *)
Lemma split_at (c : ascii) (s1 s2 r1 r2 : string) :
  occurs c s1 = false -> occurs c s2 = false ->
  s1 ++ String c r1 = s2 ++ String c r2 -> s1 = s2 /\ r1 = r2.
Proof.
  revert s2. induction s1 as [|x s1 IH]; intros [|y s2]; simpl.
  - intros _ _ [= ->]. now split.
  - intros _ H [= -> _]. now rewrite Ascii.eqb_refl in H.
  - intros H _ [= -> _]. now rewrite Ascii.eqb_refl in H.
  - intros H1 H2 [= -> E].
    apply orb_false_elim in H1 as [_ H1]. apply orb_false_elim in H2 as [_ H2].
    destruct (IH _ H1 H2 E) as [-> ->]. now split.
Qed.

Lemma length_append (s1 s2 : string) :
  String.length (s1 ++ s2) = (String.length s1 + String.length s2)%nat.
Proof.
  induction s1 as [|x s1 IH]; simpl; [reflexivity | now rewrite IH].
Qed.

Lemma append_same_length (p1 p2 t1 t2 : string) :
  String.length t1 = String.length t2 -> p1 ++ t1 = p2 ++ t2 ->
  p1 = p2 /\ t1 = t2.
Proof.
  intros Hlen E.
  assert (Hl : String.length p1 = String.length p2).
  { apply (f_equal String.length) in E.
    rewrite !length_append in E. lia. }
  clear Hlen. revert p2 E Hl.
  induction p1 as [|x p1 IH]; intros [|y p2]; simpl; try discriminate.
  - intros ->. now split.
  - intros [= -> E] [= Hl]. destruct (IH _ E Hl) as [-> ->]. now split.
Qed.

(** *** What [str(int)] and [repr(float)] can print *)

Lemma uint_chars (d : Decimal.uint) :
  allb int_char (NilEmpty.string_of_uint d) = true.
Proof.
  induction d; simpl; auto.
Qed.

Lemma str_int_chars (z : Z) : allb int_char (Render.str_int z) = true.
Proof.
  unfold Render.str_int, NilZero.string_of_int, NilZero.string_of_uint.
  destruct (Z.to_int z) as [d|d]; destruct d; simpl; auto using uint_chars.
Qed.

Lemma str_int_float_chars (z : Z) : allb float_char (Render.str_int z) = true.
Proof.
  apply allb_weaken with (P := int_char); [|apply str_int_chars].
  intros c H. unfold float_char. now rewrite H.
Qed.

Lemma str_int_inj (z z' : Z) : Render.str_int z = Render.str_int z' -> z = z'.
Proof.
  unfold Render.str_int. intros E.
  apply DecimalZ.to_int_inj.
  assert (Hnn : forall x, Z.to_int x <> Decimal.Pos Decimal.Nil /\
                          Z.to_int x <> Decimal.Neg Decimal.Nil).
  { intros x. destruct x as [|q|q]; simpl; split; try discriminate;
      intros [= H]; now apply DecimalPos.Unsigned.to_uint_nonnil in H. }
  pose proof (NilZero.isi _ (proj1 (Hnn z)) (proj2 (Hnn z))) as H1.
  pose proof (NilZero.isi _ (proj1 (Hnn z')) (proj2 (Hnn z'))) as H2.
  rewrite E in H1. congruence.
Qed.

Lemma exponent_text_chars (ex : Z) :
  allb float_char (Render.exponent_text ex) = true.
Proof.
  unfold Render.exponent_text.
  rewrite allb_app.
  destruct (ex <? 0); destruct (Z.abs ex <? 10); simpl;
    now rewrite str_int_float_chars.
Qed.

Lemma format_repr_chars (digits : string) (decpt : Z) :
  allb float_char digits = true ->
  allb float_char (Render.format_repr digits decpt) = true.
Proof.
  intros Hd. unfold Render.format_repr.
  destruct ((decpt <=? -4) || (16 <? decpt)).
  - destruct digits as [|c [|c' rest]]; [reflexivity| |].
    + simpl in Hd |- *. apply andb_prop in Hd as [Hc _].
      now rewrite Hc, exponent_text_chars.
    + change (allb float_char (String c ("." ++ String c' rest) ++ "e" ++
                               Render.exponent_text (decpt - 1)) = true).
      simpl in Hd. apply andb_prop in Hd as [Hc Hr].
      simpl. rewrite Hc. simpl.
      apply andb_prop in Hr as [Hc' Hr]. rewrite Hc'. simpl.
      rewrite allb_app, Hr. simpl. apply exponent_text_chars.
  - destruct (decpt <=? 0).
    + change (allb float_char (String "0" (String "." (Render.zeros (Z.to_nat (- decpt)) ++ digits))) = true).
      simpl. now rewrite allb_app, allb_zeros, Hd.
    + destruct (_ <=? decpt).
      * now rewrite !allb_app, Hd, allb_zeros.
      * rewrite !allb_app, !allb_substring by exact Hd. reflexivity.
Qed.

Lemma float_digits_chars (m : positive) (e : Z) :
  allb float_char (fst (Render.float_digits m e)) = true.
Proof.
  unfold Render.float_digits.
  destruct (Render.shortest _ _ _ _ _ _ _ _) as [c k].
  simpl. destruct (c =? 10 ^ _); [reflexivity | apply str_int_float_chars].
Qed.

Lemma repr_float_chars (x : float) :
  allb float_char (Render.repr_float x) = true.
Proof.
  unfold Render.repr_float.
  destruct (Prim2SF x) as [s|s| |s m e]; try (destruct s; reflexivity);
    [reflexivity|].
  pose proof (float_digits_chars m e) as H.
  destruct (Render.float_digits m e) as [digits decpt]. simpl in H.
  rewrite allb_app, (format_repr_chars _ decpt H).
  now destruct s.
Qed.

Lemma repr_float_avoids (c : ascii) (x : float) :
  float_char c = false -> occurs c (Render.repr_float x) = false.
Proof.
  intros H. apply allb_occurs with (P := float_char); [apply repr_float_chars | exact H].
Qed.

Lemma str_int_avoids (c : ascii) (z : Z) :
  int_char c = false -> occurs c (Render.str_int z) = false.
Proof.
  intros H. apply allb_occurs with (P := int_char); [apply str_int_chars | exact H].
Qed.

Lemma append_assoc (s1 s2 s3 : string) : (s1 ++ s2) ++ s3 = s1 ++ s2 ++ s3.
Proof.
  induction s1 as [|x s1 IH]; simpl; [reflexivity | now rewrite IH].
Qed.

(** *** [repr] of a double reads back as that double

    The decimal that [repr] prints lies in the rounding interval of the
    double it prints, and the rounding intervals of two doubles do not meet;
    so the printed text determines the double. *)

(** **** Decimal digits and their value *)

Lemma digits_value_app (acc : Z) (a b : string) :
  digits_value acc (a ++ b) = digits_value (digits_value acc a) b.
Proof.
  revert acc. induction a as [|c a IH]; intros acc; simpl; [reflexivity | apply IH].
Qed.

Lemma digits_value_acc (acc : Z) (s : string) :
  digits_value acc s = acc * 10 ^ Z.of_nat (String.length s) + digits_value 0 s.
Proof.
  revert acc. induction s as [|c s IH]; intros acc.
  - simpl. lia.
  - cbn [digits_value String.length]. rewrite IH, (IH (10 * 0 + digit_value c)).
    rewrite Nat2Z.inj_succ, Z.pow_succ_r by lia. ring.
Qed.

Lemma digits_value_zeros (acc : Z) (n : nat) :
  digits_value acc (Render.zeros n) = acc * 10 ^ Z.of_nat n.
Proof.
  revert acc. induction n as [|n IH]; intros acc.
  - simpl. lia.
  - cbn [Render.zeros digits_value]. rewrite IH.
    rewrite Nat2Z.inj_succ, Z.pow_succ_r by lia.
    change (digit_value "0") with 0. ring.
Qed.

Lemma zeros_length (n : nat) : String.length (Render.zeros n) = n.
Proof. induction n as [|n IH]; simpl; [reflexivity | now rewrite IH]. Qed.

Ltac eval_digit :=
  match goal with
  | |- context [digit_value ?c] =>
      let v := eval vm_compute in (digit_value c) in
      change (digit_value c) with v
  end.

Lemma uint_acc_value (d : Decimal.uint) (acc : positive) :
  digits_value (Z.pos acc) (NilEmpty.string_of_uint d) = Z.pos (Pos.of_uint_acc d acc).
Proof.
  revert acc. induction d; intros acc;
    cbn [NilEmpty.string_of_uint digits_value Pos.of_uint_acc]; try reflexivity;
    rewrite <- IHd; f_equal; eval_digit; lia.
Qed.

Lemma uint_value (d : Decimal.uint) :
  digits_value 0 (NilEmpty.string_of_uint d) = Z.of_N (Pos.of_uint d).
Proof.
  induction d; cbn [NilEmpty.string_of_uint digits_value Pos.of_uint];
    try reflexivity; eval_digit; try exact IHd;
    cbn [Z.of_N]; rewrite <- uint_acc_value; reflexivity.
Qed.

Lemma nilzero_string (d : Decimal.uint) :
  d <> Decimal.Nil -> NilZero.string_of_uint d = NilEmpty.string_of_uint d.
Proof. destruct d; [congruence | reflexivity..]. Qed.

Lemma str_int_pos (p : positive) :
  Render.str_int (Z.pos p) = NilEmpty.string_of_uint (Pos.to_uint p).
Proof.
  unfold Render.str_int. simpl.
  apply nilzero_string, DecimalPos.Unsigned.to_uint_nonnil.
Qed.

Lemma str_int_value (p : positive) : digits_value 0 (Render.str_int (Z.pos p)) = Z.pos p.
Proof.
  rewrite str_int_pos, uint_value, DecimalPos.Unsigned.of_to. reflexivity.
Qed.

Lemma str_int_value_nonneg (z : Z) :
  0 <= z -> digits_value 0 (Render.str_int z) = z.
Proof.
  destruct z as [|p|p]; [reflexivity | intros _; apply str_int_value | lia].
Qed.

Lemma uint_digits (d : Decimal.uint) :
  allb is_digit (NilEmpty.string_of_uint d) = true.
Proof. induction d; simpl; auto. Qed.

Lemma str_int_digits (z : Z) : 0 <= z -> allb is_digit (Render.str_int z) = true.
Proof.
  destruct z as [|p|p]; [reflexivity | | lia].
  intros _. rewrite str_int_pos. apply uint_digits.
Qed.

Lemma split_on_found (c : ascii) (a b : string) :
  occurs c a = false -> split_on c (a ++ String c b) = (a, Some b).
Proof.
  induction a as [|x a IH]; simpl.
  - intros _. now rewrite Ascii.eqb_refl.
  - intros H. apply orb_false_elim in H as [Hx Ha].
    rewrite Hx, (IH Ha). reflexivity.
Qed.

Lemma split_on_absent (c : ascii) (a : string) :
  occurs c a = false -> split_on c a = (a, None).
Proof.
  induction a as [|x a IH]; simpl; [reflexivity|].
  intros H. apply orb_false_elim in H as [Hx Ha].
  rewrite Hx, (IH Ha). reflexivity.
Qed.

Lemma digits_avoid (c : ascii) (s : string) :
  allb is_digit s = true -> is_digit c = false -> occurs c s = false.
Proof. intros Hs Hc. now apply allb_occurs with (P := is_digit). Qed.

Lemma parse_exponent_text (ex : Z) :
  parse_exponent (Render.exponent_text ex) = ex.
Proof.
  unfold Render.exponent_text.
  assert (Hv : digits_value 0 (if Z.abs ex <? 10
                               then "0" ++ Render.str_int (Z.abs ex)
                               else Render.str_int (Z.abs ex)) = Z.abs ex).
  { destruct (Z.abs ex <? 10).
    - change (digits_value 0 ("0" ++ Render.str_int (Z.abs ex)))
        with (digits_value (10 * 0 + digit_value "0") (Render.str_int (Z.abs ex))).
      change (10 * 0 + digit_value "0") with 0.
      apply str_int_value_nonneg. lia.
    - apply str_int_value_nonneg. lia. }
  set (t := if Z.abs ex <? 10 then _ else _) in *.
  destruct (ex <? 0) eqn:Hneg.
  - change (parse_exponent ("-" ++ t)) with (- digits_value 0 t).
    apply Z.ltb_lt in Hneg. lia.
  - change (parse_exponent ("+" ++ t)) with (digits_value 0 t).
    apply Z.ltb_ge in Hneg. lia.
Qed.

Lemma substring_split (s : string) (a : nat) :
  (a <= String.length s)%nat ->
  substring 0 a s ++ substring a (String.length s - a) s = s.
Proof.
  revert a. induction s as [|x s IH]; intros a Ha.
  - destruct a; [reflexivity | simpl in Ha; lia].
  - destruct a as [|a].
    + simpl. f_equal. clear. induction s as [|y s IH]; simpl; [reflexivity | now rewrite IH].
    + simpl in Ha. simpl. f_equal. apply IH. lia.
Qed.

Lemma substring_length (s : string) (a b : nat) :
  (a + b <= String.length s)%nat -> String.length (substring a b s) = b.
Proof.
  revert a b. induction s as [|x s IH]; intros a b H.
  - simpl in H. assert (a = 0%nat) by lia. assert (b = 0%nat) by lia. now subst.
  - destruct a as [|a].
    + destruct b as [|b]; [reflexivity|]. simpl. f_equal. apply (IH 0%nat). simpl in H. lia.
    + simpl. apply IH. simpl in H. lia.
Qed.

Lemma zeros_digits (k : nat) : allb is_digit (Render.zeros k) = true.
Proof. induction k as [|k IH]; simpl; [reflexivity | exact IH]. Qed.

Lemma decode_plain (whole fraction : string) :
  allb is_digit whole = true -> allb is_digit fraction = true ->
  decode (whole ++ String "." fraction) =
  (digits_value 0 (whole ++ fraction), - Z.of_nat (String.length fraction)).
Proof.
  intros Hw Hf. unfold decode.
  rewrite split_on_absent.
  2:{ rewrite occurs_app. simpl.
      now rewrite (digits_avoid "e" _ Hw), (digits_avoid "e" _ Hf). }
  rewrite split_on_found by (now apply digits_avoid).
  reflexivity.
Qed.

Lemma decode_exponent (whole fraction : string) (ex : Z) :
  allb is_digit whole = true -> allb is_digit fraction = true ->
  decode (whole ++ String "." fraction ++ String "e" (Render.exponent_text ex)) =
  (digits_value 0 (whole ++ fraction), ex - Z.of_nat (String.length fraction)).
Proof.
  intros Hw Hf. unfold decode.
  replace (whole ++ String "." fraction ++ String "e" (Render.exponent_text ex))
    with ((whole ++ String "." fraction) ++ String "e" (Render.exponent_text ex)).
  2:{ rewrite append_assoc. reflexivity. }
  rewrite split_on_found.
  2:{ rewrite occurs_app. simpl.
      now rewrite (digits_avoid "e" _ Hw), (digits_avoid "e" _ Hf). }
  rewrite split_on_found by (now apply digits_avoid).
  now rewrite parse_exponent_text.
Qed.

Lemma decode_exponent_whole (whole : string) (ex : Z) :
  allb is_digit whole = true ->
  decode (whole ++ String "e" (Render.exponent_text ex)) =
  (digits_value 0 whole, ex).
Proof.
  intros Hw. unfold decode.
  rewrite split_on_found by (now apply digits_avoid).
  rewrite split_on_absent by (now apply digits_avoid).
  rewrite parse_exponent_text.
  replace (whole ++ "") with whole.
  2:{ clear. induction whole as [|x w IH]; simpl; [reflexivity | now rewrite <- IH]. }
  simpl. f_equal. lia.
Qed.

Lemma decode_format (digits : string) (decpt : Z) :
  allb is_digit digits = true -> digits <> "" ->
  exists j,
    0 <= j /\
    decode (Render.format_repr digits decpt) =
    (digits_value 0 digits * 10 ^ j, decpt - Z.of_nat (String.length digits) - j).
Proof.
  intros Hd Hne. unfold Render.format_repr.
  destruct ((decpt <=? -4) || (16 <? decpt)) eqn:Hexp.
  - exists 0. split; [lia|].
    destruct digits as [|c [|c' r]]; [congruence| |].
    + change (String c "" ++ "e" ++ Render.exponent_text (decpt - 1))
        with (String c "" ++ String "e" (Render.exponent_text (decpt - 1))).
      rewrite decode_exponent_whole by exact Hd.
      simpl String.length. f_equal; lia.
    + change (String c ("." ++ String c' r) ++ "e" ++ Render.exponent_text (decpt - 1))
        with (String c "" ++ String "." (String c' r) ++
              String "e" (Render.exponent_text (decpt - 1))).
      simpl in Hd. apply andb_prop in Hd as [Hc Hr].
      rewrite decode_exponent; [| simpl; now rewrite Hc | exact Hr].
      change (String c "" ++ String c' r) with (String c (String c' r)).
      f_equal; [lia|]. cbn [String.length]. lia.
  - destruct (decpt <=? 0) eqn:H0.
    + exists 0. split; [lia|]. apply Z.leb_le in H0.
      change ("0." ++ Render.zeros (Z.to_nat (- decpt)) ++ digits)
        with ("0" ++ String "." (Render.zeros (Z.to_nat (- decpt)) ++ digits)).
      rewrite decode_plain; [|reflexivity | now rewrite allb_app, zeros_digits, Hd].
      change ("0" ++ Render.zeros (Z.to_nat (- decpt)) ++ digits)
        with (String "0" (Render.zeros (Z.to_nat (- decpt)) ++ digits)).
      cbn [digits_value]. change (10 * 0 + digit_value "0") with 0.
      rewrite digits_value_app, digits_value_zeros, length_append, zeros_length.
      rewrite Z.mul_0_l, Z.pow_0_r, Z.mul_1_r.
      f_equal; lia.
    + apply Z.leb_gt in H0.
      destruct (Z.of_nat (String.length digits) <=? decpt) eqn:Hn.
      * apply Z.leb_le in Hn.
        exists (decpt - Z.of_nat (String.length digits) + 1). split; [lia|].
        replace (digits ++ Render.zeros (Z.to_nat (decpt - Z.of_nat (String.length digits))) ++ ".0")
          with ((digits ++ Render.zeros (Z.to_nat (decpt - Z.of_nat (String.length digits))))
                ++ String "." "0").
        2:{ rewrite append_assoc. reflexivity. }
        rewrite decode_plain; [| now rewrite allb_app, Hd, zeros_digits | reflexivity].
        rewrite !digits_value_app, digits_value_zeros.
        cbn [digits_value String.length]. change (digit_value "0") with 0.
        rewrite Z2Nat.id by lia.
        rewrite Z.pow_add_r by lia. f_equal; [ring | lia].
      * apply Z.leb_gt in Hn. exists 0. split; [lia|].
        change (substring 0 (Z.to_nat decpt) digits ++ "." ++
                substring (Z.to_nat decpt)
                  (Z.to_nat (Z.of_nat (String.length digits) - decpt)) digits)
          with (substring 0 (Z.to_nat decpt) digits ++ String "."
                (substring (Z.to_nat decpt)
                   (Z.to_nat (Z.of_nat (String.length digits) - decpt)) digits)).
        rewrite decode_plain by (now apply allb_substring).
        replace (Z.to_nat (Z.of_nat (String.length digits) - decpt))
          with (String.length digits - Z.to_nat decpt)%nat by lia.
        rewrite substring_split by lia.
        rewrite substring_length by lia.
        f_equal; lia.
Qed.

(** **** What the digit search returns *)

Lemma in_interval_between (closed : bool) (lo v hi : Z) :
  Render.in_interval closed lo v hi = true -> between closed lo v hi.
Proof.
  unfold Render.in_interval, between. destruct closed; intros H;
    apply andb_prop in H as [H1 H2]; lia.
Qed.

Lemma between_strict (closed : bool) (lo v hi : Z) :
  lo < v < hi -> between closed lo v hi.
Proof. unfold between. destruct closed; lia. Qed.

Lemma between_weak (closed : bool) (lo v hi : Z) :
  between closed lo v hi -> lo <= v <= hi.
Proof. unfold between. destruct closed; lia. Qed.

Lemma between_scale (closed : bool) (lo v hi s : Z) :
  0 < s -> between closed lo v hi -> between closed (lo * s) (v * s) (hi * s).
Proof.
  intros Hs. unfold between. destruct closed; intros [H1 H2]; split;
    first [ now apply Z.mul_le_mono_pos_r | now apply Z.mul_lt_mono_pos_r ].
Qed.

Lemma between_cancel (closed : bool) (lo v hi s : Z) :
  0 < s -> between closed (lo * s) (v * s) (hi * s) -> between closed lo v hi.
Proof.
  intros Hs. unfold between. destruct closed; intros [H1 H2]; split;
    first [ now apply Z.mul_le_mono_pos_r with s | now apply Z.mul_lt_mono_pos_r with s ].
Qed.

Lemma between_eq (closed : bool) (lo v hi lo' v' hi' : Z) :
  lo = lo' -> v = v' -> hi = hi' -> between closed lo v hi -> between closed lo' v' hi'.
Proof. now intros -> -> ->. Qed.

Lemma scale_powers (E k : Z) :
  Render.scale E k =
  (2 ^ Z.max E 0 * 10 ^ Z.max (- k) 0, 2 ^ Z.max (- E) 0 * 10 ^ Z.max k 0).
Proof.
  unfold Render.scale.
  destruct (0 <=? E) eqn:HE; destruct (k <? 0) eqn:Hk;
    [apply Z.leb_le in HE | apply Z.leb_le in HE | apply Z.leb_gt in HE
     | apply Z.leb_gt in HE];
    [apply Z.ltb_lt in Hk | apply Z.ltb_ge in Hk | apply Z.ltb_lt in Hk
     | apply Z.ltb_ge in Hk];
    repeat match goal with
           | |- context [Z.max ?a ?b] =>
               first [ rewrite (Z.max_l a b) by lia | rewrite (Z.max_r a b) by lia ]
           end;
    rewrite ?Z.pow_0_r; reflexivity.
Qed.

Lemma scale_pos (E k : Z) : 0 < fst (Render.scale E k) /\ 0 < snd (Render.scale E k).
Proof.
  rewrite scale_powers. simpl.
  split; apply Z.mul_pos_pos; apply Z.pow_pos_nonneg; lia.
Qed.

Lemma pick_in_interval (closed : bool) (L X H E k c : Z) :
  Render.pick closed L X H E k = Some c -> in_rounding_interval closed L H E c k.
Proof.
  unfold Render.pick, in_rounding_interval.
  destruct (Render.scale E k) as [a D]. cbn [fst snd].
  set (d := X * a / D).
  destruct (Render.in_interval closed (L * a) (d * D) (H * a)) eqn:Hlo;
    destruct (Render.in_interval closed (L * a) ((d + 1) * D) (H * a)) eqn:Hhi;
    intros [= <-]; try (now apply in_interval_between).
  destruct (_ <? D); [now apply in_interval_between|].
  destruct (D <? _); [now apply in_interval_between|].
  destruct (Z.even d); now apply in_interval_between.
Qed.

Lemma exact_in_interval (closed : bool) (L X H E : Z) :
  L < X < H ->
  in_rounding_interval closed L H E (fst (Render.exact_decimal X E))
    (snd (Render.exact_decimal X E)).
Proof.
  intros HX. unfold in_rounding_interval, Render.exact_decimal.
  destruct (0 <=? E) eqn:HE; cbn [fst snd]; rewrite scale_powers; cbn [fst snd].
  - apply Z.leb_le in HE.
    rewrite (Z.max_l E 0), (Z.max_r (- E) 0), (Z.max_r (- 0) 0), (Z.max_l 0 0) by lia.
    rewrite !Z.pow_0_r, !Z.mul_1_r.
    apply between_strict.
    assert (0 < 2 ^ E) by (apply Z.pow_pos_nonneg; lia).
    split; apply Z.mul_lt_mono_pos_r; lia.
  - apply Z.leb_gt in HE.
    rewrite (Z.max_r E 0), (Z.max_l (- E) 0) by lia.
    rewrite !Z.pow_0_r, !Z.mul_1_r, !Z.mul_1_l.
    replace (X * 5 ^ (- E) * 2 ^ (- E)) with (X * 10 ^ (- E)).
    2:{ change 10 with (5 * 2). rewrite Z.pow_mul_l. ring. }
    apply between_strict.
    assert (0 < 10 ^ (- E)) by (apply Z.pow_pos_nonneg; lia).
    split; apply Z.mul_lt_mono_pos_r; lia.
Qed.

Lemma shortest_in_interval (closed : bool) (L X H E p : Z) (fuel : nat) (n : Z) :
  L < X < H ->
  in_rounding_interval closed L H E
    (fst (Render.shortest fuel n closed L X H E p))
    (snd (Render.shortest fuel n closed L X H E p)).
Proof.
  intros HX. revert n. induction fuel as [|f IH]; intros n; cbn [Render.shortest].
  - now apply exact_in_interval.
  - destruct (Render.pick closed L X H E (p - n)) as [c|] eqn:Hp.
    + cbn [fst snd]. now apply pick_in_interval with X.
    + apply IH.
Qed.

Lemma in_rounding_interval_pos (closed : bool) (L H E c k : Z) :
  0 < L -> in_rounding_interval closed L H E c k -> 0 < c.
Proof.
  intros HL Hin. unfold in_rounding_interval in Hin.
  destruct (scale_pos E k) as [Ha HD].
  apply between_weak in Hin as [Hlo _].
  assert (0 < L * fst (Render.scale E k)) by (now apply Z.mul_pos_pos).
  destruct (Z.lt_trichotomy c 0) as [Hc|[Hc|Hc]]; [|subst c; lia|exact Hc].
  assert (c * snd (Render.scale E k) < 0) by (now apply Z.mul_neg_pos).
  lia.
Qed.

(** **** The digits of a double *)

Lemma str_int_nonempty (c : Z) : 0 < c -> Render.str_int c <> "".
Proof.
  intros Hc E. pose proof (@str_int_value_nonneg c ltac:(lia)) as Hv.
  rewrite E in Hv. simpl in Hv. lia.
Qed.

Lemma nonempty_length (s : string) : s <> "" -> (1 <= String.length s)%nat.
Proof. destruct s; [congruence | simpl; lia]. Qed.

Lemma below_bounds (m : positive) (e : Z) : 1 <= Render.below m e <= 2.
Proof. unfold Render.below. destruct (_ && _); lia. Qed.

Lemma float_digits_decimal (m : positive) (e : Z) (digits : string) (decpt : Z) :
  Render.float_digits m e = (digits, decpt) ->
  allb is_digit digits = true /\ digits <> "" /\
  exists c k t,
    in_rounding_interval (Z.even (Z.pos m))
      (4 * Z.pos m - Render.below m e) (4 * Z.pos m + 2) (e - 2) c k /\
    0 <= t /\
    c = digits_value 0 digits * 10 ^ t /\
    k = decpt - Z.of_nat (String.length digits) - t.
Proof.
  unfold Render.float_digits.
  pose proof (below_bounds m e) as Hb.
  set (X := 4 * Z.pos m). set (L := X - Render.below m e). set (H := X + 2).
  set (p := Render.find_decpt _ _ _ _).
  pose proof (@shortest_in_interval (Z.even (Z.pos m)) L X H (e - 2) p 17 1
                ltac:(unfold L, H; lia)) as Hin.
  destruct (Render.shortest 17 1 (Z.even (Z.pos m)) L X H (e - 2) p) as [c k].
  cbn [fst snd] in Hin.
  assert (Hc : 0 < c).
  { apply in_rounding_interval_pos with (2 := Hin). unfold L, X. lia. }
  pose proof (str_int_nonempty Hc) as Hne.
  pose proof (nonempty_length Hne) as Hlen.
  destruct (c =? 10 ^ (Z.of_nat (String.length (Render.str_int c)) - 1)) eqn:Hpow.
  - apply Z.eqb_eq in Hpow. intros [= <- <-].
    split; [reflexivity|]. split; [discriminate|].
    exists c, k, (Z.of_nat (String.length (Render.str_int c)) - 1).
    split; [exact Hin|]. split; [lia|].
    split; [|cbn [String.length]; lia].
    change (digits_value 0 "1") with 1. rewrite Z.mul_1_l. exact Hpow.
  - intros [= <- <-].
    split; [apply str_int_digits; lia|]. split; [exact Hne|].
    exists c, k, 0.
    split; [exact Hin|]. split; [lia|].
    rewrite str_int_value_nonneg by lia. split; lia.
Qed.

Lemma format_repr_head (digits : string) (decpt : Z) :
  allb is_digit digits = true -> digits <> "" ->
  exists c rest, Render.format_repr digits decpt = String c rest /\ is_digit c = true.
Proof.
  intros Hd Hne. destruct digits as [|x r]; [congruence|].
  simpl in Hd. apply andb_prop in Hd as [Hx Hr].
  unfold Render.format_repr.
  destruct ((decpt <=? -4) || (16 <? decpt)).
  - destruct r; simpl; eauto.
  - destruct (decpt <=? 0) eqn:H0.
    + simpl. eauto.
    + apply Z.leb_gt in H0.
      destruct (_ <=? decpt).
      * simpl. eauto.
      * destruct (Z.to_nat decpt) as [|n] eqn:En; [lia|]. simpl. eauto.
Qed.

(** **** One scale for all doubles

    With every exponent at least [-1076], an interval [L * 2^E, H * 2^E] and
    a decimal [c * 10^k] compare as integers after multiplying by [2^1076]
    and the power of ten below the point. *)

Lemma normalise (closed : bool) (L H E c k B : Z) :
  0 <= E + B -> 0 <= B ->
  in_rounding_interval closed L H E c k ->
  between closed (L * 2 ^ (E + B) * 10 ^ Z.max (- k) 0)
    (c * 2 ^ B * 10 ^ Z.max k 0) (H * 2 ^ (E + B) * 10 ^ Z.max (- k) 0).
Proof.
  intros HEB HB. unfold in_rounding_interval. rewrite scale_powers. cbn [fst snd].
  intros Hin.
  apply between_scale with (s := 2 ^ (B - Z.max (- E) 0)) in Hin;
    [|apply Z.pow_pos_nonneg; lia].
  assert (E1 : 2 ^ (E + B) = 2 ^ Z.max E 0 * 2 ^ (B - Z.max (- E) 0)).
  { rewrite <- Z.pow_add_r by lia. f_equal. lia. }
  assert (E2 : 2 ^ B = 2 ^ Z.max (- E) 0 * 2 ^ (B - Z.max (- E) 0)).
  { rewrite <- Z.pow_add_r by lia. f_equal. lia. }
  rewrite E1, E2.
  set (x := 2 ^ Z.max E 0) in *. set (y := 2 ^ (B - Z.max (- E) 0)) in *.
  set (z := 2 ^ Z.max (- E) 0) in *.
  set (u := 10 ^ Z.max (- k) 0) in *. set (v := 10 ^ Z.max k 0) in *.
  revert Hin. apply between_eq; ring.
Qed.

Lemma between_same_decimal (closed : bool) (Lg Hg T c k C K : Z) :
  c * 10 ^ Z.max k 0 * 10 ^ Z.max (- K) 0 = C * 10 ^ Z.max K 0 * 10 ^ Z.max (- k) 0 ->
  between closed (Lg * 10 ^ Z.max (- k) 0) (c * T * 10 ^ Z.max k 0)
    (Hg * 10 ^ Z.max (- k) 0) ->
  between closed (Lg * 10 ^ Z.max (- K) 0) (C * T * 10 ^ Z.max K 0)
    (Hg * 10 ^ Z.max (- K) 0).
Proof.
  intros Heq Hin.
  assert (Hk : 0 < 10 ^ Z.max (- k) 0) by (apply Z.pow_pos_nonneg; lia).
  assert (HK : 0 < 10 ^ Z.max (- K) 0) by (apply Z.pow_pos_nonneg; lia).
  apply between_scale with (s := 10 ^ Z.max (- K) 0) in Hin; [|exact HK].
  apply between_cancel with (s := 10 ^ Z.max (- k) 0); [exact Hk|].
  set (a := 10 ^ Z.max k 0) in *. set (b := 10 ^ Z.max (- K) 0) in *.
  set (a' := 10 ^ Z.max K 0) in *. set (b' := 10 ^ Z.max (- k) 0) in *.
  revert Hin. apply between_eq; try ring.
  replace (c * T * a * b) with (T * (c * a * b)) by ring.
  rewrite Heq. ring.
Qed.

Lemma same_decimal (d t j P : Z) :
  0 <= t -> 0 <= j ->
  d * 10 ^ t * 10 ^ Z.max (P - t) 0 * 10 ^ Z.max (- (P - j)) 0 =
  d * 10 ^ j * 10 ^ Z.max (P - j) 0 * 10 ^ Z.max (- (P - t)) 0.
Proof.
  intros Ht Hj.
  rewrite <- !Z.mul_assoc, <- !Z.pow_add_r by lia.
  f_equal. f_equal. lia.
Qed.

(** What is printed for a positive finite double, read back as a decimal,
    lies in the rounding interval of that double. *)
Lemma printed_decimal (m : positive) (e : Z) (digits : string) (decpt : Z) :
  -1074 <= e ->
  Render.float_digits m e = (digits, decpt) ->
  0 < fst (decode (Render.format_repr digits decpt)) /\
  between (Z.even (Z.pos m))
    ((4 * Z.pos m - Render.below m e) * 2 ^ (e + 1074) *
     10 ^ Z.max (- snd (decode (Render.format_repr digits decpt))) 0)
    (fst (decode (Render.format_repr digits decpt)) * 2 ^ 1076 *
     10 ^ Z.max (snd (decode (Render.format_repr digits decpt))) 0)
    ((4 * Z.pos m + 2) * 2 ^ (e + 1074) *
     10 ^ Z.max (- snd (decode (Render.format_repr digits decpt))) 0).
Proof.
  intros He Hfd.
  destruct (float_digits_decimal _ _ Hfd) as (Hd & Hne & c & k & t & Hin & Ht & Hc & Hk).
  destruct (decode_format decpt Hd Hne) as (j & Hj & Hdec).
  rewrite Hdec. cbn [fst snd].
  pose proof (below_bounds m e) as Hb.
  assert (Hcpos : 0 < c).
  { apply in_rounding_interval_pos with (2 := Hin). lia. }
  assert (Hdv : 0 < digits_value 0 digits).
  { assert (0 < 10 ^ t) by (apply Z.pow_pos_nonneg; lia).
    destruct (Z.lt_trichotomy (digits_value 0 digits) 0) as [Hn|[Hn|Hn]];
      [|rewrite Hn in Hc; lia|exact Hn].
    assert (digits_value 0 digits * 10 ^ t < 0) by (now apply Z.mul_neg_pos). lia. }
  split.
  { apply Z.mul_pos_pos; [exact Hdv | apply Z.pow_pos_nonneg; lia]. }
  apply (@normalise _ _ _ _ _ _ 1076) in Hin; [|lia|lia].
  replace (e - 2 + 1076) with (e + 1074) in Hin by lia.
  set (T := 2 ^ 1076) in *. set (g := 2 ^ (e + 1074)) in *.
  apply between_same_decimal with (c := c) (k := k); [|exact Hin].
  rewrite Hc, Hk.
  apply same_decimal; assumption.
Qed.

(** **** The rounding intervals of two doubles do not meet *)

Lemma digits2_size (p : positive) : digits2_pos p = Pos.size p.
Proof. induction p; simpl; congruence. Qed.

Lemma digits2_lower (p : positive) : 2 ^ (Z.pos (digits2_pos p) - 1) <= Z.pos p.
Proof.
  rewrite digits2_size.
  pose proof (Pos.size_le p) as H.
  assert (H' : (2 ^ Z.pos (Pos.size p) <= 2 * Z.pos p)).
  { rewrite <- Pos2Z.inj_pow. exact H. }
  replace (Z.pos (Pos.size p)) with (Z.succ (Z.pos (Pos.size p) - 1)) in H' by lia.
  rewrite Z.pow_succ_r in H' by lia. lia.
Qed.

Lemma digits2_above (p : positive) : Z.pos p < 2 ^ Z.pos (digits2_pos p).
Proof.
  rewrite digits2_size. pose proof (Pos.size_gt p) as H.
  rewrite <- Pos2Z.inj_pow. exact H.
Qed.

Lemma valid_canonical (s : bool) (m : positive) (e : Z) :
  valid_binary (S754_finite s m e) = true -> canonical m e.
Proof.
  unfold valid_binary, SpecFloat.valid_binary, bounded, canonical_mantissa,
    fexp, SpecFloat.emin, prec, emax.
  intros H. apply andb_prop in H as [H _]. apply Z.eqb_eq in H.
  pose proof (digits2_above m) as Ha. pose proof (digits2_lower m) as Hb.
  unfold canonical.
  assert (Hd : Z.pos (digits2_pos m) = 53 \/
               (e = -1074 /\ Z.pos (digits2_pos m) <= 53)) by lia.
  destruct Hd as [Hd|[He Hd]].
  - rewrite Hd in Ha, Hb. simpl Z.sub in Hb. split; [lia|]. split; [exact Ha|].
    right. exact Hb.
  - split; [lia|]. split; [|now left].
    apply Z.lt_le_trans with (1 := Ha). apply Z.pow_le_mono_r; lia.
Qed.

Lemma apart (cl1 cl2 : bool) (h l g A V lo hi : Z) :
  0 < g -> 0 < A -> h <= l -> (h = l -> cl1 = false \/ cl2 = false) ->
  between cl1 lo V (h * g * A) -> between cl2 (l * g * A) V hi -> False.
Proof.
  intros Hg HA Hle Heq H1 H2.
  assert (HgA : 0 < g * A) by (now apply Z.mul_pos_pos).
  rewrite <- Z.mul_assoc in H1, H2.
  assert (Hm : h * (g * A) <= l * (g * A)) by (apply Z.mul_le_mono_pos_r; assumption).
  pose proof (between_weak _ _ _ _ H1) as [_ W1].
  pose proof (between_weak _ _ _ _ H2) as [W2 _].
  assert (E : h * (g * A) = l * (g * A)) by lia.
  apply Z.mul_cancel_r in E; [|lia].
  destruct (Heq E) as [-> | ->]; unfold between in *; lia.
Qed.

Lemma intervals_apart (m1 m2 : positive) (e1 e2 A V : Z) :
  canonical m1 e1 -> canonical m2 e2 ->
  e1 < e2 \/ (e1 = e2 /\ Z.pos m1 < Z.pos m2) ->
  0 < A ->
  between (Z.even (Z.pos m1))
    ((4 * Z.pos m1 - Render.below m1 e1) * 2 ^ (e1 + 1074) * A) V
    ((4 * Z.pos m1 + 2) * 2 ^ (e1 + 1074) * A) ->
  between (Z.even (Z.pos m2))
    ((4 * Z.pos m2 - Render.below m2 e2) * 2 ^ (e2 + 1074) * A) V
    ((4 * Z.pos m2 + 2) * 2 ^ (e2 + 1074) * A) ->
  False.
Proof.
  intros (He1 & Hu1 & Hn1) (He2 & Hu2 & Hn2) Hlt HA H1 H2.
  change (2 ^ 53) with 9007199254740992 in *.
  change (2 ^ 52) with 4503599627370496 in *.
  assert (Hg : 0 < 2 ^ (e1 + 1074)) by (apply Z.pow_pos_nonneg; lia).
  pose proof (below_bounds m2 e2) as Hb2.
  destruct Hlt as [Hlt|[-> Hlt]].
  - assert (Ew : 2 ^ (e2 + 1074) = 2 ^ (e2 - e1) * 2 ^ (e1 + 1074)).
    { rewrite <- Z.pow_add_r by lia. f_equal. lia. }
    assert (Hw : 2 <= 2 ^ (e2 - e1)).
    { change 2 with (2 ^ 1) at 1. apply Z.pow_le_mono_r; lia. }
    rewrite Ew in H2. set (g := 2 ^ (e1 + 1074)) in *. set (w := 2 ^ (e2 - e1)) in *.
    set (L2 := 4 * Z.pos m2 - Render.below m2 e2) in *.
    assert (HL2 : 18014398509481983 <= L2).
    { unfold L2, Render.below.
      change (2 ^ 52) with 4503599627370496.
      destruct (Z.pos m2 =? 4503599627370496) eqn:Em;
        [apply Z.eqb_eq in Em | apply Z.eqb_neq in Em];
        destruct (-1074 <? e2) eqn:Ee;
        [apply Z.ltb_lt in Ee | apply Z.ltb_ge in Ee | apply Z.ltb_lt in Ee
         | apply Z.ltb_ge in Ee]; simpl andb; cbv iota; lia. }
    assert (Hmul : L2 * 2 <= L2 * w) by (apply Z.mul_le_mono_nonneg_l; lia).
    replace (L2 * (w * g) * A) with (L2 * w * g * A) in H2 by ring.
    apply (@apart _ _ (4 * Z.pos m1 + 2) (L2 * w) g A V _ _ Hg HA ltac:(lia)) with (2 := H1) (3 := H2).
    intros E. left.
    assert (Em : Z.pos m1 = 9007199254740991) by lia.
    rewrite Em. reflexivity.
  - apply (@apart _ _ (4 * Z.pos m1 + 2) (4 * Z.pos m2 - Render.below m2 e2)
             (2 ^ (e2 + 1074)) A V _ _ Hg HA ltac:(lia)) with (2 := H1) (3 := H2).
    intros E.
    assert (Em : Z.pos m2 = Z.pos m1 + 1) by lia.
    rewrite Em, Z.even_add. destruct (Z.even (Z.pos m1)); [right|left]; reflexivity.
Qed.

Lemma same_double (m1 m2 : positive) (e1 e2 A V : Z) :
  canonical m1 e1 -> canonical m2 e2 -> 0 < A ->
  between (Z.even (Z.pos m1))
    ((4 * Z.pos m1 - Render.below m1 e1) * 2 ^ (e1 + 1074) * A) V
    ((4 * Z.pos m1 + 2) * 2 ^ (e1 + 1074) * A) ->
  between (Z.even (Z.pos m2))
    ((4 * Z.pos m2 - Render.below m2 e2) * 2 ^ (e2 + 1074) * A) V
    ((4 * Z.pos m2 + 2) * 2 ^ (e2 + 1074) * A) ->
  m1 = m2 /\ e1 = e2.
Proof.
  intros C1 C2 HA H1 H2.
  destruct (Z.lt_trichotomy e1 e2) as [He|[He|He]].
  - exfalso. apply (@intervals_apart m1 m2 e1 e2 A V); auto.
  - destruct (Z.lt_trichotomy (Z.pos m1) (Z.pos m2)) as [Hm|[Hm|Hm]].
    + exfalso. apply (@intervals_apart m1 m2 e1 e2 A V); auto.
    + split; [congruence | exact He].
    + exfalso. apply (@intervals_apart m2 m1 e2 e1 A V); auto.
  - exfalso. apply (@intervals_apart m2 m1 e2 e1 A V); auto.
Qed.

(** **** [repr] is injective *)

Lemma finite_repr_inj (m1 m2 : positive) (e1 e2 : Z) (d1 d2 : string) (p1 p2 : Z) :
  canonical m1 e1 -> canonical m2 e2 ->
  Render.float_digits m1 e1 = (d1, p1) -> Render.float_digits m2 e2 = (d2, p2) ->
  Render.format_repr d1 p1 = Render.format_repr d2 p2 ->
  m1 = m2 /\ e1 = e2.
Proof.
  intros C1 C2 F1 F2 E.
  destruct (@printed_decimal m1 e1 d1 p1 ltac:(apply C1) F1) as [_ B1].
  destruct (@printed_decimal m2 e2 d2 p2 ltac:(apply C2) F2) as [_ B2].
  rewrite <- E in B2.
  apply (@same_double m1 m2 e1 e2 _ _ C1 C2) with (2 := B1) (3 := B2).
  apply Z.pow_pos_nonneg; lia.
Qed.

Lemma finite_repr_head (m : positive) (e : Z) (d : string) (p : Z) :
  Render.float_digits m e = (d, p) ->
  exists c rest, Render.format_repr d p = String c rest /\ is_digit c = true.
Proof.
  intros F. destruct (float_digits_decimal _ _ F) as (Hd & Hne & _).
  now apply format_repr_head.
Qed.

Lemma finite_repr_nonzero (m : positive) (e : Z) (d : string) (p : Z) :
  canonical m e -> Render.float_digits m e = (d, p) ->
  Render.format_repr d p <> "0.0".
Proof.
  intros C F E.
  destruct (@printed_decimal m e d p ltac:(apply C) F) as [H _].
  rewrite E in H. vm_compute in H. discriminate.
Qed.

Lemma finite_text_shape (s : bool) (m : positive) (e : Z) :
  canonical m e ->
  exists c rest,
    is_digit c = true /\ String c rest <> "0.0" /\
    Render.format_repr (fst (Render.float_digits m e)) (snd (Render.float_digits m e)) =
    String c rest /\
    (let '(digits, decpt) := Render.float_digits m e in
     (if s then "-" else "") ++ Render.format_repr digits decpt) =
    (if s then String "-" (String c rest) else String c rest).
Proof.
  intros C. destruct (Render.float_digits m e) as [d p] eqn:F. cbn [fst snd].
  destruct (finite_repr_head _ _ F) as (c & rest & H & D).
  pose proof (finite_repr_nonzero C F) as Z.
  exists c, rest. rewrite <- H.
  split; [exact D|]. split; [exact Z|]. split; [reflexivity|].
  destruct s; reflexivity.
Qed.

Ltac refute E Dc Nz :=
  exfalso;
  first
    [ discriminate E
    | apply Nz; congruence
    | injection E; intros; subst; vm_compute in Dc; discriminate Dc ].

Theorem repr_float_inj (x y : float) :
  Render.repr_float x = Render.repr_float y -> x = y.
Proof.
  intros E. apply Prim2SF_inj.
  pose proof (Prim2SF_valid x) as Vx. pose proof (Prim2SF_valid y) as Vy.
  unfold Render.repr_float in E.
  destruct (Prim2SF x) as [sx|sx| |sx mx ex]; destruct (Prim2SF y) as [sy|sy| |sy my ey];
    try (apply valid_canonical in Vx;
         destruct (finite_text_shape sx Vx) as (cx & rx & Dx & Nx & Fx & Hx);
         rewrite Hx in E);
    try (apply valid_canonical in Vy;
         destruct (finite_text_shape sy Vy) as (cy & ry & Dy & Ny & Fy & Hy);
         rewrite Hy in E);
    try (destruct sx); try (destruct sy);
    try reflexivity; try discriminate E;
    first
      [ refute E Dy Ny
      | refute E Dx Nx
      | assert (E' : String cx rx = String cy ry) by congruence;
        rewrite <- Fx, <- Fy in E';
        destruct (@finite_repr_inj mx my ex ey _ _ _ _ Vx Vy
                    (surjective_pairing _) (surjective_pairing _) E') as [-> ->];
        reflexivity ].
Qed.

(** The hashed text, with the fixed characters that end each rendering made
    visible: [P] after the index, a comma after the year, the salary and the
    accrual rate, the closing bracket after the CPI. *)
Lemma block_string_shape (b : Block) :
  block_string b =
  Render.str_int (index b) ++ String "P"
    ("ensionRecord(year=" ++ Render.str_int (year (record b)) ++ String ","
       (" salary=" ++ Render.repr_float (salary (record b)) ++ String ","
          (" accrual_rate=" ++ Render.repr_float (accrual_rate (record b)) ++ String ","
             (" cpi_index=" ++ Render.repr_float (cpi_index (record b)) ++ String ")"
                (prev_hash b ++ timestamp b))))).
Proof.
  unfold block_string, repr_record.
  repeat (rewrite !append_assoc; simpl).
  reflexivity.
Qed.

Ltac split_rendering c H :=
  apply (split_at c) in H;
  [ | first [ apply str_int_avoids | apply repr_float_avoids ]; reflexivity
    | first [ apply str_int_avoids | apply repr_float_avoids ]; reflexivity ].

(** C7, as the code has it. The hashed text is the renderings of the fields
    written one after the other with nothing between them. Whatever the two
    blocks are, equal texts give equal indices, equal records (the year, and
    the three doubles: what [repr] prints reads back as the same double) and
    equal concatenations of [prev_hash] and [timestamp]. Where [prev_hash]
    ends and [timestamp] begins is fixed only when one of the two has the
    same length in both blocks, as the 64 characters of a digest and the 19
    characters of the [strftime] format do: then the blocks are equal. *)
Theorem block_string_determines (b1 b2 : Block) :
  block_string b1 = block_string b2 ->
  index b1 = index b2 /\
  record b1 = record b2 /\
  prev_hash b1 ++ timestamp b1 = prev_hash b2 ++ timestamp b2 /\
  (String.length (timestamp b1) = String.length (timestamp b2) \/
   String.length (prev_hash b1) = String.length (prev_hash b2) ->
   b1 = b2).
Proof.
  intros E. rewrite !block_string_shape in E.
  split_rendering "P"%char E. destruct E as [Ei E].
  injection E as E.
  split_rendering ","%char E. destruct E as [Ey E].
  injection E as E.
  split_rendering ","%char E. destruct E as [Es E].
  injection E as E.
  split_rendering ","%char E. destruct E as [Ea E].
  injection E as E.
  split_rendering ")"%char E. destruct E as [Ec E].
  apply str_int_inj in Ei, Ey.
  apply repr_float_inj in Es, Ea, Ec.
  assert (Er : record b1 = record b2).
  { destruct (record b1), (record b2). simpl in *. congruence. }
  split; [exact Ei|]. split; [exact Er|]. split; [exact E|].
  intros Hlen.
  assert (Ht : String.length (timestamp b1) = String.length (timestamp b2)).
  { destruct Hlen as [Ht|Hp]; [exact Ht|].
    apply (f_equal String.length) in E. rewrite !length_append in E. lia. }
  destruct (append_same_length _ _ _ _ Ht E) as [Ep Et].
  destruct b1, b2. simpl in *. congruence.
Qed.

Lemma block_string_determines_witness :
  block_string split_early = block_string split_late /\
  index split_early = index split_late /\
  record split_early = record split_late /\
  prev_hash split_early ++ timestamp split_early =
  prev_hash split_late ++ timestamp split_late /\
  String.length (timestamp split_early) <> String.length (timestamp split_late).
Proof.
  assert (E : block_string split_early = block_string split_late)
    by (vm_compute; reflexivity).
  destruct (block_string_determines split_early split_late E)
    as (Hi & Hr & Hcat & Hsplit).
  split; [exact E|].
  split; [exact Hi|].
  split; [exact Hr|].
  split; [exact Hcat|].
  intros Hlen. discriminate (Hsplit (or_introl Hlen)).
Defined.

(** C7, as stated, fails: nothing separates [prev_hash] from [timestamp], so
    moving characters from the end of one to the start of the other changes
    the block and neither the hashed text nor the digest. *)
Lemma block_string_not_injective :
  split_early <> split_late /\
  block_string split_early = block_string split_late /\
  hash_block split_early = hash_block split_late /\
  ~ (forall b1 b2, block_string b1 = block_string b2 -> b1 = b2).
Proof.
  assert (Hne : split_early <> split_late) by discriminate.
  assert (He : block_string split_early = block_string split_late)
    by (vm_compute; reflexivity).
  split; [exact Hne|].
  split; [exact He|].
  split.
  - unfold hash_block. now rewrite He.
  - intros H. exact (Hne (H _ _ He)).
Qed.

(** ** Signs in double arithmetic

    The operations are those of [SpecFloat] at precision 53; the primitive
    operations are related to them by the axioms of [FloatAxioms]. *)

Lemma shr_1_m (mrs : shr_record) :
  0 <= shr_m mrs -> shr_m (shr_1 mrs) = Z.div2 (shr_m mrs).
Proof.
  destruct mrs as [m r s]. simpl.
  destruct m as [|p|p]; [reflexivity| |lia].
  intros _. destruct p; reflexivity.
Qed.

Lemma iter_shr_1_m (n : positive) (mrs : shr_record) :
  0 <= shr_m mrs ->
  shr_m (iter_pos shr_1 n mrs) = Z.shiftr (shr_m mrs) (Z.pos n).
Proof.
  revert mrs. induction n as [n IH|n IH|]; intros mrs Hm; simpl iter_pos.
  - assert (H1 : 0 <= shr_m (shr_1 mrs)).
    { rewrite shr_1_m by exact Hm. now apply Z.div2_nonneg. }
    assert (H2 : 0 <= shr_m (iter_pos shr_1 n (shr_1 mrs))).
    { rewrite IH by exact H1. now apply Z.shiftr_nonneg. }
    rewrite IH by exact H2. rewrite IH by exact H1.
    rewrite shr_1_m by exact Hm. rewrite Z.div2_spec.
    rewrite !Z.shiftr_shiftr by lia. f_equal. lia.
  - assert (H2 : 0 <= shr_m (iter_pos shr_1 n mrs)).
    { rewrite IH by exact Hm. now apply Z.shiftr_nonneg. }
    rewrite IH by exact H2. rewrite IH by exact Hm.
    rewrite !Z.shiftr_shiftr by lia. f_equal. lia.
  - rewrite shr_1_m by exact Hm. apply Z.div2_spec.
Qed.

Lemma shr_m_of_loc (m : Z) (l : location) : shr_m (shr_record_of_loc m l) = m.
Proof. destruct l as [|[]]; reflexivity. Qed.

Lemma shr_nonneg (mrs : shr_record) (e n : Z) :
  0 <= shr_m mrs -> 0 <= shr_m (fst (shr mrs e n)).
Proof.
  intros Hm. destruct n as [|p|p]; simpl; try exact Hm.
  rewrite iter_shr_1_m by exact Hm. now apply Z.shiftr_nonneg.
Qed.

Lemma shiftr_pos (p : positive) (n : Z) :
  0 <= n < Z.pos (digits2_pos p) -> 0 < Z.shiftr (Z.pos p) n.
Proof.
  intros Hn. rewrite Z.shiftr_div_pow2 by lia.
  apply Z.div_str_pos. split; [apply Z.pow_pos_nonneg; lia|].
  apply Z.le_trans with (2 ^ (Z.pos (digits2_pos p) - 1)); [|apply digits2_lower].
  apply Z.pow_le_mono_r; lia.
Qed.

Lemma shr_fexp_nonneg (m e : Z) (l : location) :
  0 <= m -> 0 <= shr_m (fst (shr_fexp prec emax m e l)).
Proof.
  intros Hm. unfold shr_fexp. apply shr_nonneg. now rewrite shr_m_of_loc.
Qed.

Lemma shr_fexp_pos (p : positive) (e : Z) (l : location) :
  -1074 <= e ->
  0 < shr_m (fst (shr_fexp prec emax (Z.pos p) e l)) /\
  -1074 <= snd (shr_fexp prec emax (Z.pos p) e l).
Proof.
  intros He. unfold shr_fexp, fexp, SpecFloat.emin, prec, emax. simpl Zdigits2.
  destruct (Z.max (Z.pos (digits2_pos p) + e - 53) (3 - 1024 - 53) - e)
    as [|q|q] eqn:En; simpl; rewrite ?shr_m_of_loc; try (split; lia).
  rewrite iter_shr_1_m by (rewrite shr_m_of_loc; lia).
  rewrite shr_m_of_loc. split; [|lia].
  apply shiftr_pos. lia.
Qed.

Lemma round_nearest_even_ge (m : Z) (l : location) :
  m <= round_nearest_even m l.
Proof.
  destruct l as [|[]]; simpl; try lia. destruct (Z.even m); lia.
Qed.

Lemma binary_round_aux_signed (s : bool) (m e : Z) (l : location) :
  0 <= m -> signed s (binary_round_aux prec emax s m e l).
Proof.
  intros Hm. unfold binary_round_aux.
  pose proof (@shr_fexp_nonneg m e l Hm) as H1.
  destruct (shr_fexp prec emax m e l) as [mrs' e']. simpl in H1.
  pose proof (round_nearest_even_ge (shr_m mrs') (loc_of_shr_record mrs')) as Hr.
  assert (H2 : 0 <= round_nearest_even (shr_m mrs') (loc_of_shr_record mrs')) by lia.
  pose proof (@shr_fexp_nonneg _ e' loc_Exact H2) as H3.
  destruct (shr_fexp prec emax _ e' loc_Exact) as [mrs'' e'']. simpl in H3.
  destruct (shr_m mrs'') as [|q|q]; [reflexivity| |lia].
  destruct (e'' <=? emax - prec); reflexivity.
Qed.

Lemma binary_round_aux_nonzero (s : bool) (p : positive) (e : Z) (l : location) :
  -1074 <= e -> signed_nonzero s (binary_round_aux prec emax s (Z.pos p) e l).
Proof.
  intros He. unfold binary_round_aux.
  destruct (@shr_fexp_pos p e l He) as [H1 He'].
  destruct (shr_fexp prec emax (Z.pos p) e l) as [mrs' e']. simpl in H1, He'.
  pose proof (round_nearest_even_ge (shr_m mrs') (loc_of_shr_record mrs')) as Hr.
  destruct (round_nearest_even (shr_m mrs') (loc_of_shr_record mrs')) as [|p'|p'];
    try lia.
  destruct (@shr_fexp_pos p' e' loc_Exact He') as [H3 _].
  destruct (shr_fexp prec emax (Z.pos p') e' loc_Exact) as [mrs'' e'']. simpl in H3.
  destruct (shr_m mrs'') as [|q|q]; try lia.
  destruct (e'' <=? emax - prec); reflexivity.
Qed.

Lemma iter_xO (m d : positive) : Z.pos (Pos.iter xO m d) = Z.pos m * 2 ^ Z.pos d.
Proof.
  revert m. induction d as [|d IH] using Pos.peano_ind; intros m.
  - simpl. lia.
  - rewrite Pos.iter_succ. rewrite Pos2Z.inj_xO, IH, Pos2Z.inj_succ.
    rewrite Z.pow_succ_r by lia. ring.
Qed.

Lemma shl_align_snd (m : positive) (e e' : Z) :
  -1074 <= e -> -1074 <= e' -> -1074 <= snd (shl_align m e e').
Proof.
  intros He He'. unfold shl_align. destruct (e' - e); simpl; lia.
Qed.

Lemma binary_round_nonzero (s : bool) (m : positive) (e : Z) :
  -1074 <= e -> signed_nonzero s (binary_round prec emax s m e).
Proof.
  intros He. unfold binary_round.
  assert (Hf : -1074 <= fexp prec emax (Z.pos (digits2_pos m) + e)).
  { unfold fexp, SpecFloat.emin, prec, emax. lia. }
  pose proof (@shl_align_snd m e _ He Hf) as Hs.
  destruct (shl_align m e _) as [mz ez]. simpl in Hs.
  now apply binary_round_aux_nonzero.
Qed.

Lemma valid_normal (m : positive) (e : Z) :
  valid_binary (S754_finite false m e) = true -> -52 < e ->
  2 ^ 52 <= Z.pos m.
Proof.
  unfold valid_binary, SpecFloat.valid_binary, bounded, canonical_mantissa,
    fexp, SpecFloat.emin, prec, emax.
  intros H He. apply andb_prop in H as [H _]. apply Z.eqb_eq in H.
  assert (Hd : Z.pos (digits2_pos m) = 53) by lia.
  pose proof (digits2_lower m) as Hl. rewrite Hd in Hl. exact Hl.
Qed.

Lemma above_one (m : positive) (e : Z) :
  SFltb sf_one (S754_finite false m e) = true ->
  -52 < e \/ (e = -52 /\ 4503599627370496 < Z.pos m).
Proof.
  unfold SFltb, SFcompare, sf_one.
  destruct (Z.compare_spec (-52) e) as [<-|Hlt|Hgt]; [|now left|discriminate].
  change (Pos.compare_cont Eq 4503599627370496 m)
    with (Pos.compare 4503599627370496 m).
  destruct (Pos.compare_spec 4503599627370496 m) as [_|Hlt|_]; try discriminate.
  intros _. right. split; [reflexivity | lia].
Qed.

Lemma one_minus_negative (t : spec_float) :
  valid_binary t = true -> SFltb sf_one t = true ->
  signed_nonzero true (SF64sub sf_one t).
Proof.
  intros Hv Hlt. destruct t as [s|s| |s m e]; try discriminate.
  - destruct s; [discriminate | reflexivity].
  - destruct s; [discriminate|].
    apply above_one in Hlt.
    unfold SF64sub, SFsub, sf_one.
    replace (Z.min (-52) e) with (-52) by lia.
    assert (Hd : Z.pos (fst (shl_align 4503599627370496 (-52) (-52))) -
                 Z.pos (fst (shl_align m e (-52))) < 0).
    { change (fst (shl_align 4503599627370496 (-52) (-52))) with 4503599627370496%positive.
      unfold shl_align.
      destruct (-52 - e) as [|d|d] eqn:Ed; simpl fst; try lia.
      rewrite iter_xO.
      pose proof (@valid_normal m e Hv ltac:(lia)) as Hm.
      assert (2 <= 2 ^ Z.pos d).
      { change 2 with (2 ^ 1) at 1. apply Z.pow_le_mono_r; lia. }
      change (2 ^ 52) with 4503599627370496 in Hm. nia. }
    unfold cond_Zopp.
    destruct (Z.pos _ - Z.pos _) as [|q|q]; try lia.
    unfold binary_normalize. apply binary_round_nonzero. lia.
Qed.

Lemma times_negative (r d : spec_float) :
  SFltb (S754_zero false) r = true -> signed_nonzero true d ->
  signed true (SF64mul r d).
Proof.
  intros Hr Hd.
  destruct r as [s|s| |s m e]; try discriminate;
    (destruct s; [discriminate|]);
    destruct d as [s'|s'| |s' m' e']; simpl in Hd; try contradiction; subst s';
    try reflexivity.
  unfold SF64mul, SFmul. apply binary_round_aux_signed. lia.
Qed.

Lemma Prim2SF_zero : Prim2SF 0 = S754_zero false.
Proof. reflexivity. Qed.

Lemma Prim2SF_one : Prim2SF 1 = sf_one.
Proof. reflexivity. Qed.

Lemma signed_negative (x : float) :
  signed true (Prim2SF x) -> (x <? 0)%float = true \/ x = (-0)%float.
Proof.
  intros H. rewrite ltb_spec, Prim2SF_zero.
  destruct (Prim2SF x) as [s|s| |s m e] eqn:E; simpl in H; try contradiction; subst s.
  - right. rewrite <- (SF2Prim_Prim2SF x), E. reflexivity.
  - now left.
  - now left.
Qed.

Lemma product_negative (r t : float) :
  (0 <? r)%float = true -> (1 <? t)%float = true ->
  signed true (Prim2SF (r * (1 - t))).
Proof.
  intros Hr Ht.
  rewrite ltb_spec, Prim2SF_zero in Hr.
  rewrite ltb_spec, Prim2SF_one in Ht.
  rewrite mul_spec, sub_spec, Prim2SF_one.
  apply times_negative; [exact Hr|].
  apply one_minus_negative; [apply Prim2SF_valid | exact Ht].
Qed.

(** ** No clamping *)

Lemma tiny_run :
  fst (script "2025-03-01 09:00:00" tiny_widgets None) = Some tiny_ledger.
Proof. vm_compute. reflexivity. Qed.

(** C5, as the code has it. With a positive raw total and a reduction above 1
    the final pension is [raw * (1 - reduction)], never clamped and never
    positive: it is below zero, or it is the negative zero when the product
    is too small for a double. *)
Theorem reduction_not_clamped (chain : list Block) (npa retire_age : Z)
    (rate y : float) :
  retire_age < npa ->
  float_of_int (npa - retire_age) = Ok y ->
  (0 <? raw_float chain)%float = true ->
  (1 <? y * rate)%float = true ->
  exists final,
    project chain npa retire_age rate =
    Ok (mkProjection (total_pension_raw chain) (Float final)
          (EarlyRetirement (y * rate) (npa - retire_age))) /\
    final = (raw_float chain * (1 - y * rate))%float /\
    ((final <? 0)%float = true \/ final = (-0)%float) /\
    (0 <? final)%float = false.
Proof.
  intros Hlt Hy Hraw Hred.
  exists (raw_float chain * (1 - y * rate))%float.
  split; [exact (project_early chain rate Hlt Hy)|].
  split; [reflexivity|].
  pose proof (@signed_negative _ (@product_negative _ _ Hraw Hred)) as Hs.
  split; [exact Hs|].
  destruct Hs as [Hneg| ->]; [|reflexivity].
  rewrite ltb_spec in Hneg |- *. rewrite Prim2SF_zero in Hneg |- *.
  destruct (Prim2SF _) as [s|s| |s m e]; try discriminate;
    destruct s; try discriminate; reflexivity.
Qed.

Lemma reduction_not_clamped_witness :
  (50 < 76 /\ float_of_int (76 - 50) = Ok 26%float /\
   (0 <? raw_float example_ledger)%float = true /\
   (1 <? 26 * (4 / 100))%float = true) /\
  exists final,
    project example_ledger 76 50 (4 / 100) =
    Ok (mkProjection (total_pension_raw example_ledger) (Float final)
          (EarlyRetirement (26 * (4 / 100)) (76 - 50))) /\
    final = (raw_float example_ledger * (1 - 26 * (4 / 100)))%float /\
    ((final <? 0)%float = true \/ final = (-0)%float) /\
    (0 <? final)%float = false.
Proof.
  assert (H1 : 50 < 76) by lia.
  assert (H2 : float_of_int (76 - 50) = Ok 26%float) by (vm_compute; reflexivity).
  assert (H3 : (0 <? raw_float example_ledger)%float = true)
    by (vm_compute; reflexivity).
  assert (H4 : (1 <? 26 * (4 / 100))%float = true) by (vm_compute; reflexivity).
  split; [repeat split; assumption|].
  exact (@reduction_not_clamped example_ledger 76 50 (4 / 100)%float 26%float H1 H2 H3 H4).
Defined.

(** C5, as stated, fails: a raw total of [2^-1074] is positive and the
    reduction 1.04 is above 1, yet their product rounds to the negative zero,
    which is not below zero. *)
Lemma underflow_is_not_negative :
  reachable (Some tiny_ledger) /\
  (0 <? raw_float tiny_ledger)%float = true /\
  float_of_int (76 - 50) = Ok 26%float /\
  (1 <? 26 * (4 / 100))%float = true /\
  project tiny_ledger 76 50 (4 / 100) =
  Ok (mkProjection (Float 0x1p-1074) (Float (-0)) (EarlyRetirement 1.04 26)) /\
  (-0 <? 0)%float = false.
Proof.
  split.
  - rewrite <- tiny_run. apply reachable_run, reachable_start.
  - repeat split; vm_compute; reflexivity.
Qed.

(** * Further properties of the script *)

(** ** The ledger over a whole session, continued *)

(** X1. The ledger of a session is the genesis block of the first execution
    followed by one block per execution in which the button was pressed, in
    that order: it carries the record built from that execution's widgets,
    that execution's class-definition time and its position as index. *)
Theorem ledger_is_the_submissions (now : string) (w : widgets)
    (trace : list (string * widgets)) :
  exists blocks,
    run ((now, w) :: trace) None =
    Some (mkBlock 0 genesis_record "0" now :: blocks) /\
    map record blocks =
    map (fun nw => widget_record (snd nw)) (filter pressed ((now, w) :: trace)) /\
    map timestamp blocks = map fst (filter pressed ((now, w) :: trace)) /\
    map index blocks = map (fun k => Z.of_nat (S k)) (seq 0 (List.length blocks)).
Proof.
  exact (run_first now w trace).
Qed.

(** X2. Executions only ever add at the end: whatever non-empty chain the
    session holds, sound or not, after any number of executions it is still
    there as a prefix, followed by one block per press. *)
Theorem executions_only_append (trace : list (string * widgets))
    (chain : list Block) :
  chain <> [] ->
  exists ext,
    run trace (Some chain) = Some (chain ++ ext)%list /\
    List.length ext = List.length (filter pressed trace).
Proof.
  intros Hne. destruct (run_from trace Hne) as (ext & Hrun & _ & Ht & _).
  exists ext. split; [exact Hrun|].
  rewrite <- (length_map timestamp), Ht. now rewrite length_map.
Qed.

Lemma executions_only_append_witness :
  forged_ledger <> [] /\
  exists ext,
    run example_trace (Some forged_ledger) = Some (forged_ledger ++ ext)%list /\
    List.length ext = List.length (filter pressed example_trace).
Proof.
  assert (Hne : forged_ledger <> []) by (vm_compute; discriminate).
  split; [exact Hne|].
  exact (executions_only_append example_trace Hne).
Defined.

(** X3. [append] raises [IndexError] exactly on the empty chain, and a
    session that holds the empty chain never recovers: every execution leaves
    it empty, pressed or not. *)
Theorem empty_chain_is_stuck :
  (forall cls r chain, append cls r chain = Error IndexError <-> chain = []) /\
  (forall trace, run trace (Some []) = Some []) /\
  (forall now w,
     w_button w = true -> snd (script now w (Some [])) = Error IndexError).
Proof.
  split; [|split].
  - intros cls r chain. split.
    + apply append_error.
    + now intros ->.
  - induction trace as [|[now w] trace IH]; [reflexivity|].
    simpl run. unfold script, button_handler. simpl.
    destruct (w_button w); simpl; exact IH.
  - intros now w Hb. unfold script, button_handler. simpl. now rewrite Hb.
Qed.

(** ** The shape of a digest *)

Lemma hex_digit_is_hex (x : Z) : 0 <= x < 16 -> is_hex (Sha256.hex_digit x) = true.
Proof.
  intros H.
  assert (E : x = 0 \/ x = 1 \/ x = 2 \/ x = 3 \/ x = 4 \/ x = 5 \/ x = 6 \/ x = 7 \/
              x = 8 \/ x = 9 \/ x = 10 \/ x = 11 \/ x = 12 \/ x = 13 \/ x = 14 \/
              x = 15) by lia.
  repeat (destruct E as [->|E]; [reflexivity|]). now subst.
Qed.

Lemma hex_word_length (w : Z) : String.length (Sha256.hex_word w) = 8%nat.
Proof. reflexivity. Qed.

Lemma hex_word_chars (w : Z) : allb is_hex (Sha256.hex_word w) = true.
Proof.
  unfold Sha256.hex_word.
  cbn [rev seq Datatypes.app map string_of_list_ascii allb].
  rewrite !hex_digit_is_hex by (apply Z.mod_pos_bound; lia).
  reflexivity.
Qed.

Lemma hexdigest_shape (data : list Z) :
  String.length (Sha256.hexdigest data) = 64%nat /\
  allb is_hex (Sha256.hexdigest data) = true.
Proof.
  unfold Sha256.hexdigest, Sha256.digest_words.
  set (s := Sha256.blocks _ _ _).
  cbn [map String.concat].
  rewrite !length_append, !allb_app, !hex_word_length, !hex_word_chars.
  split; reflexivity.
Qed.

(** X4. In a ledger built by appends the block at position 0 alone carries
    the previous hash ["0"]; every other block carries a digest of 64
    lower-case hexadecimal characters. *)
Theorem only_genesis_has_zero (chain : list Block) (i : nat) (b : Block) :
  built chain -> nth_error chain i = Some b ->
  (i = O /\ prev_hash b = "0") \/
  ((0 < i)%nat /\ String.length (prev_hash b) = 64%nat /\
   allb is_hex (prev_hash b) = true /\ prev_hash b <> "0").
Proof.
  intros Hb Hn. destruct (integrity_built Hb) as ((g & Hg & _ & Hp & _) & _ & Hl).
  destruct i as [|i].
  - left. split; [reflexivity|]. congruence.
  - right. split; [lia|].
    assert (Hlt : (i < List.length chain)%nat).
    { apply Nat.lt_succ_l. apply nth_error_Some. congruence. }
    destruct (nth_error chain i) as [p|] eqn:Hpi;
      [|apply nth_error_None in Hpi; lia].
    rewrite (Hl i p b Hpi Hn). unfold hash_block.
    destruct (hexdigest_shape (Sha256.encode (block_string p))) as [H64 Hhex].
    split; [exact H64|]. split; [exact Hhex|].
    intros E. rewrite E in H64. discriminate.
Qed.

Lemma only_genesis_has_zero_witness :
  (built example_ledger /\ nth_error example_ledger 1 = Some example_block) /\
  ((1 = 0)%nat /\ prev_hash example_block = "0" \/
   (0 < 1)%nat /\ String.length (prev_hash example_block) = 64%nat /\
   allb is_hex (prev_hash example_block) = true /\ prev_hash example_block <> "0").
Proof.
  assert (Hn : nth_error example_ledger 1 = Some example_block) by reflexivity.
  split; [split; [exact example_built | exact Hn]|].
  exact (@only_genesis_has_zero example_ledger 1 example_block example_built Hn).
Defined.
